(** * Drone simulator backend (server.ts): simulation sessions

    A shallow embedding of the WebSocket side of the backend: the
    [SimulationState] object, the per-tick update [updateDronePosition],
    the route geometry helpers and the handlers that start, pause, resume,
    stop and re-speed a simulation.

    JavaScript numbers are IEEE 754 binary64 values; they are modelled by
    Rocq's primitive [float], whose operations are the same correctly
    rounded binary64 operations.  Array indices are naturals.  The
    [activeSimulations] map is a [gmap] keyed by the connection id; the
    [SimulationState] objects it shares with the [setInterval] closures
    live in an explicit heap, so that a handler mutating the state through
    the map is seen by the timer. *)

From Stdlib Require Import Floats ZArith Lia.
From stdpp Require Import base option list strings gmap.

Set Warnings "-inexact-float".

(** ** Numbers *)

Module Num.

(** [Math.min(a, b)]: NaN if either argument is NaN, and [-0] counts as
    smaller than [+0]. *)
Definition Math_min (a b : float) : float :=
  if (is_nan a || is_nan b)%bool then nan
  else if (a <? b)%float then a
  else if (b <? a)%float then b
  else if (is_zero a && get_sign a)%bool then a
  else b.

(** [a >= b] on numbers: false as soon as one side is NaN. *)
Definition geb (a b : float) : bool := (b <=? a)%float.

(** [ToBoolean] of a number: [0], [-0] and NaN are falsy. *)
Definition truthy (x : float) : bool := negb (is_zero x || is_nan x).

(** [x || d] where [x] is a possibly missing number. *)
Definition or_default (x : option float) (d : float) : float :=
  match x with
  | Some v => if truthy v then v else d
  | None => d
  end.

End Num.

(** ** Data model *)

Record Coordinate := mkCoordinate { lat : float; lng : float }.

Record SimulationState := mkSimulationState {
  waypoints : list Coordinate;
  currentWaypointIndex : nat;
  nextWaypointIndex : nat;
  progress : float;
  speed : float;
  isPaused : bool;
  startTime : Z;
  currentPosition : Coordinate;
  totalDistance : option float;   (* optional field: [None] is undefined *)
  isComplete : option bool        (* optional field: [None] is undefined *)
}.

(** [state.isComplete || false], also the test [if (state.isComplete)]. *)
Definition complete (state : SimulationState) : bool :=
  match isComplete state with
  | Some b => b
  | None => false
  end.

(** Field assignments. *)
Definition set_progress (p : float) (s : SimulationState) : SimulationState :=
  mkSimulationState (waypoints s) (currentWaypointIndex s) (nextWaypointIndex s)
    p (speed s) (isPaused s) (startTime s) (currentPosition s)
    (totalDistance s) (isComplete s).

Definition set_speed (v : float) (s : SimulationState) : SimulationState :=
  mkSimulationState (waypoints s) (currentWaypointIndex s) (nextWaypointIndex s)
    (progress s) v (isPaused s) (startTime s) (currentPosition s)
    (totalDistance s) (isComplete s).

Definition set_isPaused (b : bool) (s : SimulationState) : SimulationState :=
  mkSimulationState (waypoints s) (currentWaypointIndex s) (nextWaypointIndex s)
    (progress s) (speed s) b (startTime s) (currentPosition s)
    (totalDistance s) (isComplete s).

Definition set_currentPosition (c : Coordinate) (s : SimulationState)
  : SimulationState :=
  mkSimulationState (waypoints s) (currentWaypointIndex s) (nextWaypointIndex s)
    (progress s) (speed s) (isPaused s) (startTime s) c
    (totalDistance s) (isComplete s).

Definition set_totalDistance (d : float) (s : SimulationState)
  : SimulationState :=
  mkSimulationState (waypoints s) (currentWaypointIndex s) (nextWaypointIndex s)
    (progress s) (speed s) (isPaused s) (startTime s) (currentPosition s)
    (Some d) (isComplete s).

Definition set_isComplete (b : bool) (s : SimulationState) : SimulationState :=
  mkSimulationState (waypoints s) (currentWaypointIndex s) (nextWaypointIndex s)
    (progress s) (speed s) (isPaused s) (startTime s) (currentPosition s)
    (totalDistance s) (Some b).

(** [state.currentWaypointIndex++; state.nextWaypointIndex++]. *)
Definition incr_indices (s : SimulationState) : SimulationState :=
  mkSimulationState (waypoints s) (S (currentWaypointIndex s))
    (S (nextWaypointIndex s))
    (progress s) (speed s) (isPaused s) (startTime s) (currentPosition s)
    (totalDistance s) (isComplete s).

(** ** Route geometry *)

Definition calculateDistance (point1 point2 : Coordinate) : float :=
  let latDiff := (lat point2 - lat point1)%float in
  let lngDiff := (lng point2 - lng point1)%float in
  sqrt (latDiff * latDiff + lngDiff * lngDiff)%float.

(** The loop [for (i = 0; i < waypoints.length - 1; i++)] walks the
    consecutive pairs from the left, accumulating in [totalDistance]. *)
Fixpoint calculateTotalDistance_from (totalDistance : float)
    (waypoints : list Coordinate) : float :=
  match waypoints with
  | a :: (b :: _) as rest =>
      calculateTotalDistance_from (totalDistance + calculateDistance a b)%float rest
  | _ => totalDistance
  end.

Definition calculateTotalDistance (waypoints : list Coordinate) : float :=
  calculateTotalDistance_from 0%float waypoints.

(** ** One tick of a session *)

(** [const step = (speed * 0.0001) / 10]. *)
Definition step_of (speed : float) : float := ((speed * 0.0001) / 10)%float.

(** [const ratio = Math.min(state.progress / segmentDistance, 1)]. *)
Definition ratio_of (progress segmentDistance : float) : float :=
  Num.Math_min (progress / segmentDistance)%float 1%float.

(** The interpolated position written to [state.currentPosition]. *)
Definition interpolate (current next : Coordinate) (ratio : float) : Coordinate :=
  {| lat := (lat current + (lat next - lat current) * ratio)%float;
     lng := (lng current + (lng next - lng current) * ratio)%float |}.

(** [updateDronePosition(state)].  The state is mutated in place in the
    source; here the new state is returned.  [None] is the [TypeError]
    raised by reading [.lat] of an [undefined] array element, which happens
    before any field is written. *)
Definition updateDronePosition (state : SimulationState)
  : option SimulationState :=
  if (length (waypoints state) <=? nextWaypointIndex state)%nat then
    Some (set_isComplete true state)
  else
    match waypoints state !! currentWaypointIndex state,
          waypoints state !! nextWaypointIndex state with
    | Some current, Some next =>
        let segmentDistance := calculateDistance current next in
        let step := step_of (speed state) in
        let state1 := set_progress (progress state + step)%float state in
        let ratio := ratio_of (progress state1) segmentDistance in
        let state2 := set_currentPosition (interpolate current next ratio) state1 in
        if Num.geb ratio 1%float
        then Some (set_progress 0%float (incr_indices state2))
        else Some state2
    | _, _ => None
    end.

(** ** The server: connections, timers and the session registry *)

(** A connection: the socket object and the [id] property the connection
    handler attaches to it. *)
Record WebSocketWithId := mkWebSocket { socket : nat; id : option string }.

(** [if (!ws.id)]: a missing or empty id is falsy. *)
Definition ws_id (ws : WebSocketWithId) : option string :=
  match id ws with
  | Some s => if decide (s = EmptyString) then None else Some s
  | None => None
  end.

Record WebSocketMessage := mkMessage {
  msg_type : string;
  msg_waypoints : option (list Coordinate);
  msg_speed : option float
}.

(** What [ws.send] is given. *)
Inductive ServerMessage :=
  | SIMULATION_STARTED (initialPosition : Coordinate)
  | POSITION_UPDATE (position : Coordinate) (progress : float)
      (currentWaypoint : nat) (isComplete : bool)
  | ERROR (message : string).

(** An entry of [activeSimulations]: a reference to the state object and
    the handle returned by [setInterval]. *)
Record ActiveSimulation := mkActive { state : nat; interval : nat }.

(** What the arrow function given to [setInterval] captures. *)
Record Closure := mkClosure { cl_ws : WebSocketWithId; cl_state : nat }.

Record Server := mkServer {
  activeSimulations : gmap string ActiveSimulation;
  heap : gmap nat SimulationState;   (* the SimulationState objects *)
  intervals : gmap nat Closure;      (* the timers that are armed *)
  next_ref : nat;                    (* next unused reference / handle *)
  sent : list (nat * ServerMessage)  (* log of [ws.send], oldest first *)
}.

Definition empty_server : Server := mkServer ∅ ∅ ∅ 0 [].

Definition with_sims (m : gmap string ActiveSimulation) (srv : Server) : Server :=
  mkServer m (heap srv) (intervals srv) (next_ref srv) (sent srv).

Definition with_heap (h : gmap nat SimulationState) (srv : Server) : Server :=
  mkServer (activeSimulations srv) h (intervals srv) (next_ref srv) (sent srv).

Definition with_intervals (t : gmap nat Closure) (srv : Server) : Server :=
  mkServer (activeSimulations srv) (heap srv) t (next_ref srv) (sent srv).

Definition ws_send (ws : WebSocketWithId) (m : ServerMessage) (srv : Server)
  : Server :=
  mkServer (activeSimulations srv) (heap srv) (intervals srv) (next_ref srv)
    (sent srv ++ [(socket ws, m)]).

Definition clearInterval (t : nat) (srv : Server) : Server :=
  with_intervals (delete t (intervals srv)) srv.

Definition sendError (ws : WebSocketWithId) (message : string) (srv : Server)
  : Server :=
  ws_send ws (ERROR message) srv.

(** The object literal assigned to [simulationState], with
    [totalDistance] filled in by the following statement.  [now] is the
    value of [Date.now()]. *)
Definition simulationState (waypoints : list Coordinate) (speed : option float)
    (now : Z) : SimulationState :=
  set_totalDistance (calculateTotalDistance waypoints)
    {| waypoints := waypoints;
       currentWaypointIndex := 0;
       nextWaypointIndex := 1;
       progress := 0%float;
       speed := Num.or_default speed 1%float;
       isPaused := false;
       startTime := now;
       (* [{ ...waypoints[0] }]; the spread of [undefined] has no fields,
          which cannot happen after the length check *)
       currentPosition := default (mkCoordinate nan nan) (waypoints !! 0);
       totalDistance := None;
       isComplete := None |}.

(** [handleStartSimulation(ws, data)] *)
Definition handleStartSimulation (now : Z) (ws : WebSocketWithId)
    (data : WebSocketMessage) (srv : Server) : Server :=
  match ws_id ws with
  | None => srv
  | Some wsid =>
    match msg_waypoints data with
    | None => sendError ws "At least two waypoints are required" srv
    | Some waypoints =>
      if (length waypoints <? 2)%nat
      then sendError ws "At least two waypoints are required" srv
      else
        (* stop any existing simulation for this client *)
        let srv1 :=
          match activeSimulations srv !! wsid with
          | Some old => clearInterval (interval old) srv
          | None => srv
          end in
        let ref := next_ref srv1 in
        let srv2 :=
          mkServer
            (<[wsid := mkActive ref ref]> (activeSimulations srv1))
            (<[ref := simulationState waypoints (msg_speed data) now]> (heap srv1))
            (<[ref := mkClosure ws ref]> (intervals srv1))
            (S ref)
            (sent srv1) in
        match waypoints !! 0 with
        | Some w0 => ws_send ws (SIMULATION_STARTED w0) srv2
        | None => srv2
        end
    end
  end.

(** The message built from the state after [updateDronePosition]. *)
Definition position_update (st : SimulationState) : ServerMessage :=
  POSITION_UPDATE (currentPosition st) (progress st)
    (currentWaypointIndex st) (complete st).

(** The callback armed by [setInterval(..., 100)], for the timer with
    handle [t].  A cleared timer never fires.  [None] is an exception
    escaping the callback. *)
Definition interval_callback (t : nat) (srv : Server) : option Server :=
  match intervals srv !! t with
  | None => Some srv
  | Some cl =>
    st ← heap srv !! cl_state cl;
    if isPaused st then Some srv
    else
      st' ← updateDronePosition st;
      let srv1 :=
        ws_send (cl_ws cl) (position_update st')
          (with_heap (<[cl_state cl := st']> (heap srv)) srv) in
      if complete st' then
        let srv2 := clearInterval t srv1 in
        match ws_id (cl_ws cl) with
        | Some wsid => Some (with_sims (delete wsid (activeSimulations srv2)) srv2)
        | None => Some srv2
        end
      else Some srv1
  end.

(** Mutation of the state object reached through the registry. *)
Definition update_state (clientId : string)
    (f : SimulationState → SimulationState) (srv : Server) : Server :=
  match activeSimulations srv !! clientId with
  | Some a => with_heap (alter f (state a) (heap srv)) srv
  | None => srv
  end.

Definition handlePauseSimulation (clientId : string) (srv : Server) : Server :=
  update_state clientId (set_isPaused true) srv.

Definition handleResumeSimulation (clientId : string) (srv : Server) : Server :=
  update_state clientId (set_isPaused false) srv.

Definition handleStopSimulation (clientId : string) (srv : Server) : Server :=
  match activeSimulations srv !! clientId with
  | Some a =>
      let srv1 := clearInterval (interval a) srv in
      with_sims (delete clientId (activeSimulations srv1)) srv1
  | None => srv
  end.

Definition handleUpdateSpeed (clientId : string) (speed : float) (srv : Server)
  : Server :=
  update_state clientId (set_speed speed) srv.

(** The [close] handler of a connection. *)
Definition on_close (ws : WebSocketWithId) (srv : Server) : Server :=
  match ws_id ws with
  | Some wsid => handleStopSimulation wsid srv
  | None => srv
  end.

(** The [message] handler, after [JSON.parse]; an unknown type is only
    logged. *)
Definition on_message (now : Z) (ws : WebSocketWithId) (data : WebSocketMessage)
    (srv : Server) : Server :=
  if decide (msg_type data = "START_SIMULATION") then
    handleStartSimulation now ws data srv
  else if decide (msg_type data = "PAUSE_SIMULATION") then
    from_option (λ i, handlePauseSimulation i srv) srv (ws_id ws)
  else if decide (msg_type data = "RESUME_SIMULATION") then
    from_option (λ i, handleResumeSimulation i srv) srv (ws_id ws)
  else if decide (msg_type data = "STOP_SIMULATION") then
    from_option (λ i, handleStopSimulation i srv) srv (ws_id ws)
  else if decide (msg_type data = "UPDATE_SPEED") then
    match ws_id ws, msg_speed data with
    | Some i, Some v => handleUpdateSpeed i v srv
    | _, _ => srv
    end
  else srv.

(** [n] calls of [updateDronePosition] on a session. *)
Fixpoint advance_n (n : nat) (s : SimulationState) : option SimulationState :=
  match n with
  | O => Some s
  | S k => s' ← updateDronePosition s; advance_n k s'
  end.


(** ** Reachable sessions *)

(** The states a session object goes through between its creation by
    [handleStartSimulation] and its removal: ticks of its timer while it
    is not paused, and the pause, resume and speed handlers.  The tick
    that sets [isComplete] clears the timer and removes the session. *)
Inductive reachable : SimulationState → Prop :=
  | reach_start wps v now :
      2 ≤ length wps → reachable (simulationState wps v now)
  | reach_tick s s' :
      reachable s → complete s = false → isPaused s = false →
      updateDronePosition s = Some s' → reachable s'
  | reach_pause s :
      reachable s → complete s = false → reachable (set_isPaused true s)
  | reach_resume s :
      reachable s → complete s = false → reachable (set_isPaused false s)
  | reach_speed s v :
      reachable s → complete s = false → reachable (set_speed v s).

Record session_inv (s : SimulationState) : Prop := mkSessionInv {
  inv_next : nextWaypointIndex s = S (currentWaypointIndex s);
  inv_len : 2 ≤ length (waypoints s);
  inv_range : nextWaypointIndex s ≤ length (waypoints s);
  (* the segment being traversed has not been finished yet *)
  inv_mid : ∀ current next,
    waypoints s !! currentWaypointIndex s = Some current →
    waypoints s !! nextWaypointIndex s = Some next →
    Num.geb (ratio_of (progress s) (calculateDistance current next)) 1 = false;
  (* at the end of the route, the state is the one left by the tick
     that finished the last segment *)
  inv_end : nextWaypointIndex s = length (waypoints s) →
    progress s = 0%float ∧
    ∃ a b, waypoints s !! (currentWaypointIndex s - 1) = Some a ∧
           waypoints s !! currentWaypointIndex s = Some b ∧
           currentPosition s = interpolate a b 1;
  (* the flag is only set by the tick that finds the route finished *)
  inv_complete : complete s = true →
    nextWaypointIndex s = length (waypoints s)
}.

(** A tick that does not stall: on an unfinished route it either moves
    to the next segment or strictly increases [progress]. *)
Definition progressing (s : SimulationState) : Prop :=
  ∀ s', updateDronePosition s = Some s' →
    nextWaypointIndex s < length (waypoints s) →
    nextWaypointIndex s' = S (nextWaypointIndex s)
    ∨ (progress s <? progress s')%float = true.

(** ** An integer ranking of binary64 values

    Strictly monotone for [<] on the values [Prim2SF] produces; used to
    bound the number of times a number can strictly increase. *)
Definition rank_bound : Z := 2046 * 2 ^ 53.

Definition rank_finite (m : positive) (e : Z) : Z :=
  (e + 1074) * 2 ^ 53 + Z.pos m.

Definition rank (x : spec_float) : Z :=
  match x with
  | S754_zero _ => 0
  | S754_nan => 0
  | S754_infinity s => cond_Zopp s rank_bound
  | S754_finite s m e => cond_Zopp s (rank_finite m e)
  end.

(** The sign bit of a number that is not NaN is clear. *)
Definition sign_clear (x : spec_float) : Prop :=
  match x with
  | S754_nan => True
  | S754_zero s | S754_infinity s | S754_finite s _ _ => s = false
  end.

(** The measure that decreases along a session that does not stall. *)
Definition remaining (s : SimulationState) : Z :=
  Z.of_nat (length (waypoints s) - nextWaypointIndex s) * (2 * rank_bound + 1)
  + (rank_bound - rank (Prim2SF (progress s))).

(** A bounded run of the session that checks, tick by tick, that it
    does not stall before the end of its route. *)
Fixpoint never_stalls (fuel : nat) (s : SimulationState) : bool :=
  if (length (waypoints s) <=? nextWaypointIndex s)%nat then true
  else
    match fuel with
    | O => false
    | S fuel' =>
        match updateDronePosition s with
        | Some s' =>
            ((nextWaypointIndex s' =? S (nextWaypointIndex s))%nat
             || (progress s <? progress s')%float)
            && never_stalls fuel' s'
        | None => false
        end
    end.

(** ** Scenarios *)

Module Scenario.

Definition route : list Coordinate :=
  [mkCoordinate 0 0; mkCoordinate 0 1].

Definition ws : WebSocketWithId := mkWebSocket 7 (Some "1700000000000").

Definition start : WebSocketMessage :=
  mkMessage "START_SIMULATION" (Some route) (Some 1%float).

Definition started (now : Z) : Server :=
  handleStartSimulation now ws start empty_server.

(** The smallest positive number: a speed whose step underflows to 0. *)
Definition tiny : float := 0x1p-1074%float.

(** A route whose only segment has length zero. *)
Definition still : list Coordinate :=
  [mkCoordinate 0 0; mkCoordinate 0 0].

(** A route from latitude 1 to latitude 0.1, flown in a single tick. *)
Definition south : list Coordinate :=
  [mkCoordinate 1 0; mkCoordinate 0.1 0].

Definition fast : float := 100000%float.

Definition start_south : WebSocketMessage :=
  mkMessage "START_SIMULATION" (Some south) (Some fast).

End Scenario.

(** ** Reachable servers *)

(** What the event loop delivers: a parsed message on a connection, the
    close of a connection, or the firing of a timer. *)
Inductive Event :=
  | Message (now : Z) (ws : WebSocketWithId) (data : WebSocketMessage)
  | Close (ws : WebSocketWithId)
  | Timer (t : nat).

Definition handle (e : Event) (srv : Server) : option Server :=
  match e with
  | Message now ws data => Some (on_message now ws data srv)
  | Close ws => Some (on_close ws srv)
  | Timer t => interval_callback t srv
  end.

Fixpoint run (es : list Event) (srv : Server) : option Server :=
  match es with
  | [] => Some srv
  | e :: es' => srv' ← handle e srv; run es' srv'
  end.

Inductive server_reachable : Server → Prop :=
  | sr_init : server_reachable empty_server
  | sr_step srv e srv' :
      server_reachable srv → handle e srv = Some srv' → server_reachable srv'.

(** Every registered session is a live, reachable session whose timer is
    armed and captures the same state object and a connection with that
    id; every armed timer belongs to a registered session. *)
Definition server_inv (srv : Server) : Prop :=
  (∀ i a, activeSimulations srv !! i = Some a →
     state a = interval a
     ∧ ∃ cl st,
         intervals srv !! interval a = Some cl
         ∧ cl_state cl = state a
         ∧ ws_id (cl_ws cl) = Some i
         ∧ heap srv !! state a = Some st
         ∧ reachable st ∧ complete st = false)
  ∧ (∀ t cl, intervals srv !! t = Some cl →
       cl_state cl = t ∧ t < next_ref srv
       ∧ ∃ i, ws_id (cl_ws cl) = Some i
              ∧ activeSimulations srv !! i = Some (mkActive t t)).

(** The connection id an event belongs to: that of the connection a
    message or close arrives on, or of the connection captured by the
    timer that fires. *)
Definition event_owner (srv : Server) (e : Event) : option string :=
  match e with
  | Message _ ws _ | Close ws => ws_id ws
  | Timer t => cl ← intervals srv !! t; ws_id (cl_ws cl)
  end.

(** ** Coordinate files (parseCsvCoordinates, parseTxtCoordinates)

    A JavaScript string is a sequence of UTF-16 code units, here a list
    of numbers.  [parseFloat] and [toLowerCase] are the built-in
    functions, taken as parameters.  A thrown [Error] is the left
    injection of its message. *)
Module Text.

(** The code units of an ASCII literal. *)
Fixpoint lit (s : string) : list N :=
  match s with
  | EmptyString => []
  | String c r => Ascii.N_of_ascii c :: lit r
  end.

(** White space and line terminators: what [trim] strips and what the
    regular expression [\s] matches. *)
Definition is_space (c : N) : bool :=
  ((c =? 9) || (c =? 10) || (c =? 11) || (c =? 12) || (c =? 13)
   || (c =? 32) || (c =? 160) || (c =? 5760)
   || ((8192 <=? c) && (c <=? 8202))
   || (c =? 8232) || (c =? 8233) || (c =? 8239) || (c =? 8287)
   || (c =? 12288) || (c =? 65279))%N.

Fixpoint trimStart (s : list N) : list N :=
  match s with
  | c :: r => if is_space c then trimStart r else s
  | [] => []
  end.

(** [s.trim()] *)
Definition trim (s : list N) : list N :=
  reverse (trimStart (reverse (trimStart s))).

(** [s.split(sep)] for a separator of one code unit. *)
Fixpoint split (sep : N) (s : list N) : list (list N) :=
  match s with
  | [] => [[]]
  | c :: r =>
      if (c =? sep)%N then [] :: split sep r
      else match split sep r with
           | piece :: rest => (c :: piece) :: rest
           | [] => [[c]]
           end
  end.

(** [s.split(/\s+/)]: the pieces between the maximal runs of white
    space; [skipping] says that the previous code unit was white space. *)
Fixpoint split_spaces_from (skipping : bool) (s : list N) : list (list N) :=
  match s with
  | [] => [[]]
  | c :: r =>
      if is_space c then
        if skipping then split_spaces_from true r
        else [] :: split_spaces_from true r
      else match split_spaces_from false r with
           | piece :: rest => (c :: piece) :: rest
           | [] => [[c]]
           end
  end.

Definition split_spaces (s : list N) : list (list N) :=
  split_spaces_from false s.

Fixpoint startsWith (p s : list N) : bool :=
  match p, s with
  | [], _ => true
  | a :: p', b :: s' => (a =? b)%N && startsWith p' s'
  | _ :: _, [] => false
  end.

(** [s.includes(p)] *)
Fixpoint includes (p s : list N) : bool :=
  startsWith p s
  || match s with
     | [] => false
     | _ :: r => includes p r
     end.

(** [xs.findIndex(f)], with [None] for -1. *)
Fixpoint findIndex {A} (f : A → bool) (xs : list A) : option nat :=
  match xs with
  | [] => None
  | x :: r => if f x then Some 0 else S <$> findIndex f r
  end.

(** [xs.map(f)] for a callback that may throw: the first throw, in
    order, ends the loop. *)
Fixpoint map_throwing {A B} (f : A → string + B) (xs : list A)
  : string + list B :=
  match xs with
  | [] => inr []
  | x :: r =>
      match f x with
      | inl e => inl e
      | inr y =>
          match map_throwing f r with
          | inl e => inl e
          | inr ys => inr (y :: ys)
          end
      end
  end.

(** The callback of [lines.slice(1).map] in parseCsvCoordinates. *)
Definition csv_row (parseFloat : list N → float) (latIndex lngIndex : nat)
    (line : list N) : string + Coordinate :=
  let values := split 44 line in
  if (length values <=? Nat.max latIndex lngIndex)%nat
  then inl "CSV row has fewer columns than expected."
  else
    let lat := parseFloat (default [] (values !! latIndex)) in
    let lng := parseFloat (default [] (values !! lngIndex)) in
    if (is_nan lat || is_nan lng)%bool
    then inl "Invalid coordinate values in CSV."
    else inr (mkCoordinate lat lng).

(** The body of the [try] block of parseCsvCoordinates. *)
Definition csv_body (parseFloat : list N → float)
    (toLowerCase : list N → list N) (content : list N)
  : string + list Coordinate :=
  let lines := split 10 (trim content) in
  if (length lines <? 2)%nat
  then inl "CSV file must contain at least a header and one data row."
  else
    let headers := split 44 (toLowerCase (default [] (lines !! 0))) in
    let latIndex := findIndex (includes (lit "lat")) headers in
    let lngIndex :=
      findIndex (λ h, includes (lit "lon") h || includes (lit "lng") h)
        headers in
    match latIndex, lngIndex with
    | Some latIndex, Some lngIndex =>
        map_throwing (csv_row parseFloat latIndex lngIndex) (drop 1 lines)
    | _, _ => inl "Could not find latitude/longitude columns in CSV."
    end.

(** [parseCsvCoordinates(content)]: the [catch] rethrows with a prefix. *)
Definition parseCsvCoordinates (parseFloat : list N → float)
    (toLowerCase : list N → list N) (content : list N)
  : string + list Coordinate :=
  match csv_body parseFloat toLowerCase content with
  | inl errorMessage => inl ("CSV parsing error: " +:+ errorMessage)
  | inr coordinates => inr coordinates
  end.

(** The callback of [lines.map] in parseTxtCoordinates. *)
Definition txt_row (parseFloat : list N → float) (line : list N)
  : string + Coordinate :=
  let parts :=
    if includes (lit ",") line then split 44 line else split_spaces line in
  if (length parts <? 2)%nat
  then inl "Invalid coordinate format in text file."
  else
    let lat := parseFloat (default [] (parts !! 0)) in
    let lng := parseFloat (default [] (parts !! 1)) in
    if (is_nan lat || is_nan lng)%bool
    then inl "Invalid coordinate values in text file."
    else inr (mkCoordinate lat lng).

Definition txt_body (parseFloat : list N → float) (content : list N)
  : string + list Coordinate :=
  let lines := split 10 (trim content) in
  if (length lines =? 0)%nat
  then inl "Text file contains no data."
  else map_throwing (txt_row parseFloat) lines.

(** [parseTxtCoordinates(content)] *)
Definition parseTxtCoordinates (parseFloat : list N → float)
    (content : list N) : string + list Coordinate :=
  match txt_body parseFloat content with
  | inl errorMessage => inl ("Text file parsing error: " +:+ errorMessage)
  | inr coordinates => inr coordinates
  end.

End Text.

(** Stand-ins for the two built-ins on the inputs of the examples: lower
    case of the ASCII letters, and the value of a single decimal digit
    (NaN otherwise). *)
Module Builtin.

Definition ascii_toLowerCase (s : list N) : list N :=
  (λ c, if ((65 <=? c) && (c <=? 90))%N then (c + 32)%N else c) <$> s.

Definition digit_parseFloat (s : list N) : float :=
  match s with
  | [48%N] => 0 | [49%N] => 1 | [50%N] => 2 | [51%N] => 3 | [52%N] => 4
  | [53%N] => 5 | [54%N] => 6 | [55%N] => 7 | [56%N] => 8 | [57%N] => 9
  | _ => nan
  end.

End Builtin.

(** ** The client's waypoint list (useSimulation)

    The updater functions given to [setWaypoints]; they do not look
    inside the waypoints. *)
Module Client.

(** [prev.filter((_, i) => keep(i))], with [i] counted from [from]. *)
Fixpoint filter_index {A} (keep : nat → bool) (from : nat) (prev : list A)
  : list A :=
  match prev with
  | [] => []
  | x :: r =>
      if keep from then x :: filter_index keep (S from) r
      else filter_index keep (S from) r
  end.

Definition addWaypoint {A} (waypoint : A) (prev : list A) : list A :=
  prev ++ [waypoint].

Definition removeWaypoint {A} (index : nat) (prev : list A) : list A :=
  filter_index (λ i, negb (i =? index)%nat) 0 prev.

Definition updateWaypoint {A} (index : nat) (waypoint : A) (prev : list A)
  : list A :=
  imap (λ i wp, if (i =? index)%nat then waypoint else wp) prev.

End Client.

(** ** JSON coordinate files (parseJsonCoordinates, parseCoordinateFile)

    [JSON.parse], the message of the engine's [TypeError]s and
    [path.extname] are taken as parameters.  An object is the list of
    its own properties, looked up from the front. *)
Module Json.

Set Warnings "-register-all".

Inductive value :=
  | JNull
  | JBool (b : bool)
  | JNumber (x : float)
  | JString (s : list N)
  | JArray (items : list value)
  | JObject (fields : list (list N * value)).

(** Where the code can raise a [TypeError]. *)
Inductive TypeErrorSite :=
  | ReadOfNull (property : string)
  | ReadOfUndefined (property : string)
  | NotAFunction (expression : string).

(** A coordinate as parseJsonCoordinates returns it: either field may
    hold any value, or be [undefined] ([None]). *)
Record AnyCoordinate := mkAny { any_lat : option value; any_lng : option value }.

Definition of_coordinate (c : Coordinate) : AnyCoordinate :=
  mkAny (Some (JNumber (lat c))) (Some (JNumber (lng c))).

Definition same_string (a b : list N) : bool :=
  bool_decide (a = b).

Fixpoint assoc (key : list N) (fields : list (list N * value))
  : option value :=
  match fields with
  | [] => None
  | (k, v) :: r => if same_string k key then Some v else assoc key r
  end.

(** [v.key] for a [v] that is not [null] and one of the keys the code
    reads ([lat], [lng], [type], [features], [geometry], [coordinates]):
    only objects have them. *)
Definition get (key : string) (v : value) : option value :=
  match v with
  | JObject fields => assoc (Text.lit key) fields
  | _ => None
  end.

(** [ToBoolean] *)
Definition truthy (v : option value) : bool :=
  match v with
  | None | Some JNull => false
  | Some (JBool b) => b
  | Some (JNumber x) => Num.truthy x
  | Some (JString s) => negb (bool_decide (s = []))
  | Some (JArray _) | Some (JObject _) => true
  end.

Section Parse.

Variable JSON_parse : list N → string + value.
Variable typeError : TypeErrorSite → string.

(** The callback of [data.map] for an array of points. *)
Definition json_point (point : value) : string + AnyCoordinate :=
  match point with
  | JNull => inl (typeError (ReadOfNull "lat"))
  | _ =>
      match get "lat" point, get "lng" point with
      | Some (JNumber lat), Some (JNumber lng) =>
          inr (mkAny (Some (JNumber lat)) (Some (JNumber lng)))
      | _, _ => inl "Invalid coordinate format. Expected {lat, lng} objects."
      end
  end.

(** The callback of [data.features.map]. *)
Definition json_feature (feature : value) : string + AnyCoordinate :=
  match feature with
  | JNull => inl (typeError (ReadOfNull "geometry"))
  | _ =>
      let geometry := get "geometry" feature in
      if negb (truthy geometry)
      then inl "Invalid GeoJSON format. Expected coordinates array in geometry."
      else
        match geometry ≫= get "coordinates" with
        | Some (JArray coordinates) =>
            (* const [lng, lat] = feature.geometry.coordinates *)
            inr (mkAny (coordinates !! 1) (coordinates !! 0))
        | _ =>
            inl "Invalid GeoJSON format. Expected coordinates array in geometry."
        end
  end.

(** The body of the [try] block of parseJsonCoordinates. *)
Definition json_body (content : list N) : string + list AnyCoordinate :=
  match JSON_parse content with
  | inl syntaxError => inl syntaxError
  | inr (JArray data) => Text.map_throwing json_point data
  | inr JNull => inl (typeError (ReadOfNull "type"))
  | inr data =>
      match get "type" data with
      | Some (JString type) =>
          if same_string type (Text.lit "FeatureCollection") then
            match get "features" data with
            | Some (JArray features) => Text.map_throwing json_feature features
            | Some JNull => inl (typeError (ReadOfNull "map"))
            | None => inl (typeError (ReadOfUndefined "map"))
            | Some _ => inl (typeError (NotAFunction "data.features.map"))
            end
          else inl "Invalid JSON format. Expected array of coordinates or GeoJSON."
      | _ => inl "Invalid JSON format. Expected array of coordinates or GeoJSON."
      end
  end.

(** [parseJsonCoordinates(content)] *)
Definition parseJsonCoordinates (content : list N)
  : string + list AnyCoordinate :=
  match json_body content with
  | inl errorMessage => inl ("JSON parsing error: " +:+ errorMessage)
  | inr coordinates => inr coordinates
  end.

Variable extname : list N → list N.
Variable parseFloat : list N → float.
Variable toLowerCase : list N → list N.

(** [parseCoordinateFile(content, filename)] *)
Definition parseCoordinateFile (content filename : list N)
  : string + list AnyCoordinate :=
  let extension := toLowerCase (extname filename) in
  if same_string extension (Text.lit ".json") then
    parseJsonCoordinates content
  else if same_string extension (Text.lit ".csv") then
    match Text.parseCsvCoordinates parseFloat toLowerCase content with
    | inl e => inl e
    | inr cs => inr (of_coordinate <$> cs)
    end
  else if same_string extension (Text.lit ".txt") then
    match Text.parseTxtCoordinates parseFloat content with
    | inl e => inl e
    | inr cs => inr (of_coordinate <$> cs)
    end
  else inl "Unsupported file format. Please upload JSON, CSV, or TXT files.".

End Parse.

End Json.

(** Stand-ins for the parameters of the JSON examples. *)
Module JsonExample.

(** [[{"lat": 1, "lng": 2}]] *)
Definition points : Json.value :=
  Json.JArray
    [Json.JObject [(Text.lit "lat", Json.JNumber 1);
                   (Text.lit "lng", Json.JNumber 2)]].

(** A FeatureCollection with one feature whose coordinates are
    [["east"]]. *)
Definition collection : list (list N * Json.value) :=
  [(Text.lit "type", Json.JString (Text.lit "FeatureCollection"));
   (Text.lit "features",
    Json.JArray
      [Json.JObject
         [(Text.lit "geometry",
           Json.JObject
             [(Text.lit "coordinates",
               Json.JArray [Json.JString (Text.lit "east")])])]])].

Definition typeError (site : Json.TypeErrorSite) : string := "TypeError".

(** The extension of a name with a single dot. *)
Fixpoint extname (filename : list N) : list N :=
  match filename with
  | [] => []
  | c :: r => if (c =? 46)%N then filename else extname r
  end.

End JsonExample.

(** * Properties *)

(** ** Facts about binary64 arithmetic

    Derived from the specification of the primitive operations in terms
    of [spec_float] ([FloatAxioms]). *)

Lemma SFcompare_refl x : x ≠ S754_nan → SFcompare x x = Some Eq.
Proof.
  destruct x as [[]|[]| |[] m e]; simpl; try congruence; intros _;
    rewrite Z.compare_refl, Pos.compare_cont_refl; reflexivity.
Qed.

Lemma SFcompare_antisym x y :
  SFcompare y x = CompOpp <$> SFcompare x y.
Proof.
  destruct x as [[]|[]| |[] m e], y as [[]|[]| |[] m' e']; simpl; try reflexivity;
    rewrite (Z.compare_antisym e' e); destruct (e' ?= e)%Z; simpl; try reflexivity;
    pose proof (Pos.compare_cont_antisym m m' Eq) as H; simpl in H; rewrite <- H;
    destruct (Pos.compare_cont Eq m m'); reflexivity.
Qed.

Lemma is_nan_spec x : is_nan x = match Prim2SF x with S754_nan => true | _ => false end.
Proof.
  unfold is_nan. rewrite FloatAxioms.eqb_spec. unfold SFeqb.
  destruct (Prim2SF x) eqn:E; try (rewrite SFcompare_refl by congruence; reflexivity).
  reflexivity.
Qed.

Lemma is_zero_spec x : is_zero x = match Prim2SF x with S754_zero _ => true | _ => false end.
Proof.
  unfold is_zero. rewrite FloatAxioms.eqb_spec.
  change (Prim2SF zero) with (S754_zero false).
  destruct (Prim2SF x) as [[]|[]| |[] m e]; reflexivity.
Qed.

Lemma ltb_leb_false x y : (x <? y)%float = true → (y <=? x)%float = false.
Proof.
  rewrite FloatAxioms.ltb_spec, FloatAxioms.leb_spec. unfold SFltb, SFleb.
  rewrite (SFcompare_antisym (Prim2SF x) (Prim2SF y)).
  destruct (SFcompare (Prim2SF x) (Prim2SF y)) as [[]|]; simpl; congruence.
Qed.

Lemma Prim2SF_one : Prim2SF 1 = S754_finite false 4503599627370496 (-52).
Proof. reflexivity. Qed.

(** [ratio >= 1] only when [ratio] is exactly 1. *)
Lemma Math_min_one_geb x :
  Num.geb (Num.Math_min x 1) 1 = true → Num.Math_min x 1 = 1%float.
Proof.
  unfold Num.geb, Num.Math_min.
  destruct (is_nan x || is_nan 1)%bool; [intros H; discriminate H|].
  destruct (x <? 1)%float eqn:Hlt.
  - intros H. apply ltb_leb_false in Hlt. congruence.
  - destruct (1 <? x)%float; [reflexivity|].
    rewrite is_zero_spec.
    destruct (Prim2SF x) as [s| | |] eqn:E; simpl; try reflexivity.
    destruct (get_sign x); [|reflexivity].
    rewrite FloatAxioms.leb_spec, Prim2SF_one, E. intros H; discriminate H.
Qed.

Lemma is_infinity_spec x :
  is_infinity x = match Prim2SF x with S754_infinity _ => true | _ => false end.
Proof.
  unfold is_infinity. rewrite FloatAxioms.eqb_spec, abs_spec.
  change (Prim2SF infinity) with (S754_infinity false).
  destruct (Prim2SF x) as [[]|[]| |[] m e]; reflexivity.
Qed.

Lemma is_finite_spec x :
  is_finite x =
  match Prim2SF x with S754_zero _ | S754_finite _ _ _ => true | _ => false end.
Proof.
  unfold is_finite. rewrite is_nan_spec, is_infinity_spec.
  destruct (Prim2SF x); reflexivity.
Qed.

Lemma ltb_leb x y : (x <? y)%float = true → (x <=? y)%float = true.
Proof.
  rewrite FloatAxioms.ltb_spec, FloatAxioms.leb_spec. unfold SFltb, SFleb.
  destruct (SFcompare (Prim2SF x) (Prim2SF y)) as [[]|]; congruence.
Qed.

(** [Math.min(x, 1) >= 1] exactly when [x >= 1]. *)
Lemma Math_min_geb_one x : Num.geb (Num.Math_min x 1) 1 = (1 <=? x)%float.
Proof.
  unfold Num.geb, Num.Math_min. rewrite is_nan_spec.
  change (is_nan 1) with false. rewrite orb_false_r.
  destruct (Prim2SF x) as [s|s| |s m e] eqn:E;
    try (rewrite (FloatAxioms.leb_spec 1 x), E; reflexivity).
  - (* zero *)
    assert (Hlt : (x <? 1)%float = true)
      by (rewrite FloatAxioms.ltb_spec, E; reflexivity).
    rewrite Hlt. reflexivity.
  - (* infinity *)
    destruct s.
    + assert (H0 : (x <? 1)%float = true)
        by (rewrite FloatAxioms.ltb_spec, E; reflexivity).
      rewrite H0. reflexivity.
    + assert (H0 : (x <? 1)%float = false)
        by (rewrite FloatAxioms.ltb_spec, E; reflexivity).
      assert (H1 : (1 <? x)%float = true)
        by (rewrite FloatAxioms.ltb_spec, E; reflexivity).
      rewrite H0, H1, (ltb_leb _ _ H1). reflexivity.
  - (* finite *)
    destruct (x <? 1)%float eqn:H0; [reflexivity|].
    destruct (1 <? x)%float eqn:H1.
    + rewrite (ltb_leb _ _ H1). reflexivity.
    + rewrite is_zero_spec, E. simpl.
      rewrite FloatAxioms.ltb_spec in H0, H1.
      rewrite (FloatAxioms.leb_spec 1 x).
      unfold SFltb in H0, H1. unfold SFleb.
      rewrite (SFcompare_antisym (Prim2SF 1) (Prim2SF x)) in H0.
      rewrite E in *.
      destruct (SFcompare (Prim2SF 1) (S754_finite s m e)) as [[]|] eqn:C;
        simpl in *; try congruence.
      destruct s; discriminate C.
Qed.

(** A zero progress never makes the ratio reach 1, whatever the segment. *)
Lemma ratio_of_zero_progress p d :
  is_zero p = true → Num.geb (ratio_of p d) 1 = false.
Proof.
  rewrite is_zero_spec. intros Hp. unfold ratio_of.
  rewrite Math_min_geb_one, FloatAxioms.leb_spec, div_spec.
  destruct (Prim2SF p) as [s| | |]; try discriminate Hp.
  destruct (Prim2SF d) as [[]|[]| |[] m e]; destruct s; reflexivity.
Qed.

(** Division of a positive progress by a zero distance. *)
Lemma ratio_of_zero_distance p :
  (0 <? p)%float = true → ratio_of p 0 = 1%float.
Proof.
  intros Hp. rewrite FloatAxioms.ltb_spec in Hp.
  assert (Hq : (p / 0)%float = infinity).
  { apply Prim2SF_inj. rewrite div_spec.
    change (Prim2SF 0) with (S754_zero false) in *.
    change (Prim2SF infinity) with (S754_infinity false).
    destruct (Prim2SF p) as [[]|[]| |[] m e]; try discriminate Hp; reflexivity. }
  unfold ratio_of. rewrite Hq. reflexivity.
Qed.

(** Adding a zero step. *)
Lemma add_zero_step p :
  Prim2SF (p + 0)%float =
  match Prim2SF p with S754_zero _ => S754_zero false | v => v end.
Proof.
  rewrite add_spec. change (Prim2SF 0) with (S754_zero false).
  destruct (Prim2SF p) as [[]|[]| |[] m e]; reflexivity.
Qed.

Lemma add_zero_step_id p : is_zero p = false → (p + 0)%float = p.
Proof.
  rewrite is_zero_spec. intros Hp. apply Prim2SF_inj. rewrite add_zero_step.
  destruct (Prim2SF p); try reflexivity. discriminate Hp.
Qed.

Lemma add_zero_step_zero p : is_zero p = true → is_zero (p + 0)%float = true.
Proof.
  rewrite !is_zero_spec, add_zero_step. destruct (Prim2SF p); congruence.
Qed.

Lemma add_zero_step_not_lt p : (p <? p + 0)%float = false.
Proof.
  rewrite FloatAxioms.ltb_spec, add_zero_step. unfold SFltb.
  destruct (Prim2SF p) as [s|s| |s m e] eqn:E; try reflexivity;
    rewrite SFcompare_refl by congruence; reflexivity.
Qed.

Lemma ratio_of_add_zero p d :
  Num.geb (ratio_of (p + 0) d) 1 = Num.geb (ratio_of p d) 1.
Proof.
  destruct (is_zero p) eqn:Hp.
  - rewrite !ratio_of_zero_progress; auto using add_zero_step_zero.
  - rewrite add_zero_step_id by assumption. reflexivity.
Qed.

Lemma sub_diag_finite x : is_finite x = true → (x - x)%float = 0%float.
Proof.
  rewrite is_finite_spec. intros Hx. apply Prim2SF_inj. rewrite sub_spec.
  change (Prim2SF 0) with (S754_zero false).
  destruct (Prim2SF x) as [[]|[]| |s m e]; try discriminate Hx; try reflexivity.
  unfold SF64sub, SFsub. rewrite Z.min_id. unfold shl_align.
  rewrite Z.sub_diag. reflexivity.
Qed.

(** ** One tick, case by case *)

Lemma update_at_end s :
  length (waypoints s) ≤ nextWaypointIndex s →
  updateDronePosition s = Some (set_isComplete true s).
Proof.
  intros H. unfold updateDronePosition.
  apply Nat.leb_le in H. rewrite H. reflexivity.
Qed.

Lemma update_on_segment s current next :
  nextWaypointIndex s < length (waypoints s) →
  waypoints s !! currentWaypointIndex s = Some current →
  waypoints s !! nextWaypointIndex s = Some next →
  let p := (progress s + step_of (speed s))%float in
  let ratio := ratio_of p (calculateDistance current next) in
  let moved := set_currentPosition (interpolate current next ratio)
                 (set_progress p s) in
  updateDronePosition s =
    Some (if Num.geb ratio 1
          then set_progress 0 (incr_indices moved) else moved).
Proof.
  intros H Hc Hn. unfold updateDronePosition.
  apply Nat.leb_gt in H. rewrite H, Hc, Hn. simpl.
  destruct (Num.geb _ _); reflexivity.
Qed.

(** With both indices in range, a tick never raises. *)
Lemma update_total s :
  session_inv s → ∃ s', updateDronePosition s = Some s'.
Proof.
  intros [Hn _ Hr _ _ _].
  destruct (decide (nextWaypointIndex s < length (waypoints s))) as [Hlt|Hge].
  - destruct (lookup_lt_is_Some_2 (waypoints s) (currentWaypointIndex s))
      as [current Hc]; [lia|].
    destruct (lookup_lt_is_Some_2 (waypoints s) (nextWaypointIndex s))
      as [next Hx]; [lia|].
    rewrite (update_on_segment s current next) by assumption. eauto.
  - rewrite update_at_end by lia. eauto.
Qed.

(** ** The session invariant *)

Lemma session_inv_start wps v now :
  2 ≤ length wps → session_inv (simulationState wps v now).
Proof.
  intros H. split; simpl; try lia; try discriminate.
  intros current next _ _. apply ratio_of_zero_progress. reflexivity.
Qed.

Lemma session_inv_update s s' :
  session_inv s → updateDronePosition s = Some s' → session_inv s'.
Proof.
  intros [Hn Hl Hr Hm He Hc] Hu.
  destruct (decide (nextWaypointIndex s < length (waypoints s))) as [Hlt|Hge].
  - destruct (lookup_lt_is_Some_2 (waypoints s) (currentWaypointIndex s))
      as [current Hcur]; [lia|].
    destruct (lookup_lt_is_Some_2 (waypoints s) (nextWaypointIndex s))
      as [next Hnext]; [lia|].
    rewrite (update_on_segment s current next) in Hu by assumption.
    destruct (Num.geb _ _) eqn:Hratio; injection Hu as <-.
    + split; simpl; try lia.
      * intros c n _ _. apply ratio_of_zero_progress. reflexivity.
      * intros Hend. split; [reflexivity|].
        exists current, next. rewrite Nat.sub_0_r, Hcur, <- Hn, Hnext.
        repeat split. unfold ratio_of in *.
        rewrite (Math_min_one_geb _ Hratio). reflexivity.
      * intros Hcomp. apply Hc in Hcomp. lia.
    + split; simpl; try lia.
      * intros c n Hc' Hn'. rewrite Hcur in Hc'. rewrite Hnext in Hn'.
        injection Hc' as <-. injection Hn' as <-. exact Hratio.
      * intros Hcomp. apply Hc in Hcomp. lia.
  - rewrite update_at_end in Hu by lia. injection Hu as <-.
    split; simpl; try assumption. intros _. lia.
Qed.

Lemma session_inv_paused b s : session_inv s → session_inv (set_isPaused b s).
Proof. intros [? ? ? ? ? ?]. split; assumption. Qed.

Lemma session_inv_speed v s : session_inv s → session_inv (set_speed v s).
Proof. intros [? ? ? ? ? ?]. split; assumption. Qed.

Lemma reachable_inv s : reachable s → session_inv s.
Proof.
  induction 1;
    eauto using session_inv_start, session_inv_update,
      session_inv_paused, session_inv_speed.
Qed.

Lemma advance_n_inv n : ∀ s s',
  session_inv s → advance_n n s = Some s' → session_inv s'.
Proof.
  induction n as [|n IH]; simpl; intros s s' Hs H.
  - injection H as <-. assumption.
  - destruct (updateDronePosition s) as [s1|] eqn:Hu; [|discriminate H].
    simpl in H. eauto using session_inv_update.
Qed.

Lemma advance_n_add n m : ∀ s s1 s2,
  advance_n n s = Some s1 → advance_n m s1 = Some s2 →
  advance_n (n + m) s = Some s2.
Proof.
  induction n as [|n IH]; simpl; intros s s1 s2 H1 H2.
  - injection H1 as <-. assumption.
  - destruct (updateDronePosition s) as [s'|]; [|discriminate H1].
    simpl in *. eauto.
Qed.

(** ** The reference scenario: one tick at speed 1 *)

(** C1: with waypoints [{0,0},{0,1}] and speed 1, the step is
    (1 * 0.0001) / 10 = 0.00001 and the segment distance is 1; the first
    tick of the running, unpaused session leaves progress = 0.00001 (which
    is also the ratio), the position {lat: 0, lng: 0.00001} and
    isComplete = false, and that is what the POSITION_UPDATE carries. *)
Theorem C1_first_tick (now : Z) :
  let s0 := simulationState Scenario.route (Some 1%float) now in
  step_of (speed s0) = 0.00001%float
  ∧ calculateDistance (mkCoordinate 0 0) (mkCoordinate 0 1) = 1%float
  ∧ isPaused s0 = false
  ∧ (∃ s1, updateDronePosition s0 = Some s1
       ∧ progress s1 = 0.00001%float
       ∧ ratio_of (progress s1) 1%float = 0.00001%float
       ∧ currentPosition s1 = mkCoordinate 0 0.00001
       ∧ complete s1 = false
       ∧ currentWaypointIndex s1 = 0 ∧ nextWaypointIndex s1 = 1)
  ∧ (∃ srv1, interval_callback 0 (Scenario.started now) = Some srv1
       ∧ sent srv1 =
           [(7, SIMULATION_STARTED (mkCoordinate 0 0));
            (7, POSITION_UPDATE (mkCoordinate 0 0.00001) 0.00001 0 false)]).
Proof.
  cbv zeta. repeat split.
  - eexists. repeat split.
  - eexists. split; [vm_compute; reflexivity | reflexivity].
Qed.

(** ** Segment indices *)

(** C3: in every reachable session state nextIndex = currentIndex + 1.
    The state built by start has currentIndex = 0 and nextIndex = 1, and a
    tick on a segment whose ratio reaches 1 increments both indices by
    exactly 1 and resets progress to 0, whatever the overshoot; a tick
    whose ratio stays below 1 leaves the indices alone. *)
Theorem C3_next_is_current_plus_one (s : SimulationState) (Hs : reachable s) :
  nextWaypointIndex s = currentWaypointIndex s + 1
  ∧ (∀ wps v now, s = simulationState wps v now →
       currentWaypointIndex s = 0 ∧ nextWaypointIndex s = 1)
  ∧ (∀ current next,
       nextWaypointIndex s < length (waypoints s) →
       waypoints s !! currentWaypointIndex s = Some current →
       waypoints s !! nextWaypointIndex s = Some next →
       let ratio := ratio_of (progress s + step_of (speed s))
                      (calculateDistance current next) in
       ∃ s', updateDronePosition s = Some s'
         ∧ nextWaypointIndex s' = currentWaypointIndex s' + 1
         ∧ (Num.geb ratio 1 = true →
              currentWaypointIndex s' = currentWaypointIndex s + 1
              ∧ nextWaypointIndex s' = nextWaypointIndex s + 1
              ∧ progress s' = 0%float)
         ∧ (Num.geb ratio 1 = false →
              currentWaypointIndex s' = currentWaypointIndex s
              ∧ nextWaypointIndex s' = nextWaypointIndex s
              ∧ progress s' = (progress s + step_of (speed s))%float)).
Proof.
  pose proof (inv_next s (reachable_inv s Hs)) as Hn.
  split; [lia|]. split.
  - intros wps v now ->. split; reflexivity.
  - intros current next Hlt Hc Hx ratio.
    rewrite (update_on_segment s current next) by assumption.
    fold ratio. destruct (Num.geb ratio 1); eexists; (split; [reflexivity|]);
      simpl; repeat split; intros; try discriminate; lia.
Qed.

Lemma C3_next_is_current_plus_one_witness :
  let s := simulationState Scenario.route (Some 1%float) 0 in
  reachable s ∧ nextWaypointIndex s = currentWaypointIndex s + 1.
Proof.
  intros s.
  assert (Hs : reachable s) by (apply reach_start; simpl; lia).
  split; [exact Hs|]. exact (proj1 (C3_next_is_current_plus_one s Hs)).
Defined.

(** ** The completion tick *)

(** C10, as the code has it: on the tick that finds nextIndex >= len the
    only change to the session is isComplete = true, and the
    POSITION_UPDATE carries isComplete = true, progress 0,
    currentWaypoint len-1 and the position left by the tick that finished
    the last segment, which is a + (b - a) * 1 computed component-wise
    in binary64 from the last two waypoints a and b. *)
Theorem C10_completion_tick (s : SimulationState) (Hs : reachable s)
    (Hend : length (waypoints s) ≤ nextWaypointIndex s) :
  ∃ s' a b,
    updateDronePosition s = Some s'
    ∧ s' = set_isComplete true s
    ∧ waypoints s !! (length (waypoints s) - 2) = Some a
    ∧ waypoints s !! (length (waypoints s) - 1) = Some b
    ∧ position_update s' =
        POSITION_UPDATE (interpolate a b 1) 0 (length (waypoints s) - 1) true.
Proof.
  destruct (reachable_inv s Hs) as [Hn Hl Hr _ He _].
  assert (Heq : nextWaypointIndex s = length (waypoints s)) by lia.
  destruct (He Heq) as (Hp & a & b & Ha & Hb & Hpos).
  exists (set_isComplete true s), a, b.
  rewrite update_at_end by assumption.
  replace (length (waypoints s) - 2) with (currentWaypointIndex s - 1) by lia.
  replace (length (waypoints s) - 1) with (currentWaypointIndex s) by lia.
  repeat split; try assumption.
  unfold position_update. simpl. rewrite Hp, Hpos. reflexivity.
Qed.

Lemma C10_completion_tick_witness :
  ∃ s0 s1,
    s0 = simulationState Scenario.south (Some Scenario.fast) 0
    ∧ updateDronePosition s0 = Some s1
    ∧ reachable s1
    ∧ length (waypoints s1) ≤ nextWaypointIndex s1
    ∧ ∃ s' a b,
        updateDronePosition s1 = Some s'
        ∧ s' = set_isComplete true s1
        ∧ waypoints s1 !! (length (waypoints s1) - 2) = Some a
        ∧ waypoints s1 !! (length (waypoints s1) - 1) = Some b
        ∧ position_update s' =
            POSITION_UPDATE (interpolate a b 1) 0 (length (waypoints s1) - 1) true.
Proof.
  eexists. eexists.
  split; [reflexivity|]. split; [reflexivity|].
  assert (Hs : reachable
    (set_progress 0 (incr_indices (set_currentPosition
       (interpolate (mkCoordinate 1 0) (mkCoordinate 0.1 0) 1)
       (set_progress (0 + step_of Scenario.fast)
          (simulationState Scenario.south (Some Scenario.fast) 0)))))).
  { apply (reach_tick (simulationState Scenario.south (Some Scenario.fast) 0));
      [apply reach_start; simpl; lia | reflexivity | reflexivity | reflexivity]. }
  split; [exact Hs|].
  assert (Hend : 2 ≤ 2) by lia.
  split; [exact Hend|].
  exact (C10_completion_tick _ Hs Hend).
Defined.

(** C10 as stated fails where the interpolation at ratio 1 is not exact:
    from {lat: 1, lng: 0} to {lat: 0.1, lng: 0} at speed 100000 the first
    tick finishes the segment and the second is the completion tick; its
    POSITION_UPDATE carries lat = 1 + (0.1 - 1) * 1 = 0.09999999999999998,
    not the final waypoint's 0.1. *)
Lemma C10_position_not_final_waypoint :
  let srv0 :=
    handleStartSimulation 0 Scenario.ws Scenario.start_south empty_server in
  ∃ srv1 srv2,
    interval_callback 0 srv0 = Some srv1
    ∧ interval_callback 0 srv1 = Some srv2
    ∧ sent srv2 =
        [(7, SIMULATION_STARTED (mkCoordinate 1 0));
         (7, POSITION_UPDATE (mkCoordinate 0.099999999999999978 0) 0 1 false);
         (7, POSITION_UPDATE (mkCoordinate 0.099999999999999978 0) 0 1 true)]
    ∧ last Scenario.south = Some (mkCoordinate 0.1 0)
    ∧ (0.099999999999999978 =? 0.1)%float = false
    ∧ mkCoordinate 0.099999999999999978 0 ≠ mkCoordinate 0.1 0.
Proof.
  cbv zeta. eexists. eexists.
  split; [vm_compute; reflexivity|].
  split; [vm_compute; reflexivity|].
  split; [reflexivity|]. split; [reflexivity|]. split; [reflexivity|].
  intros H. apply (f_equal (λ c, (lat c =? 0.1)%float)) in H.
  vm_compute in H. discriminate H.
Qed.

(** ** Segments of length zero *)

(** Two equal waypoints with finite coordinates are at distance 0. *)
Lemma calculateDistance_same c :
  is_finite (lat c) = true → is_finite (lng c) = true →
  calculateDistance c c = 0%float.
Proof.
  intros Hlat Hlng. unfold calculateDistance.
  rewrite (sub_diag_finite _ Hlat), (sub_diag_finite _ Hlng). reflexivity.
Qed.

Lemma binary_round_aux_sign_clear m e l :
  sign_clear (binary_round_aux prec emax false m e l).
Proof.
  unfold binary_round_aux.
  destruct (shr_fexp prec emax m e l) as [mrs e'].
  destruct (shr_fexp prec emax _ e' loc_Exact) as [mrs' e''].
  destruct (shr_m mrs'); simpl; auto.
  destruct (e'' <=? emax - prec)%Z; reflexivity.
Qed.

Lemma binary_round_sign_clear m e :
  sign_clear (binary_round prec emax false m e).
Proof.
  unfold binary_round. destruct (shl_align _ _ _) as [mz ez].
  apply binary_round_aux_sign_clear.
Qed.

Lemma square_sign_clear x : sign_clear (Prim2SF (x * x)).
Proof.
  rewrite mul_spec.
  destruct (Prim2SF x) as [[]|[]| |[] m e]; simpl; auto;
    apply binary_round_aux_sign_clear.
Qed.

Lemma add_sign_clear x y :
  sign_clear (Prim2SF x) → sign_clear (Prim2SF y) →
  sign_clear (Prim2SF (x + y)).
Proof.
  rewrite add_spec.
  destruct (Prim2SF x) as [sx|sx| |sx mx ex], (Prim2SF y) as [sy|sy| |sy my ey];
    simpl; intros Hx Hy; subst; simpl; auto.
  apply binary_round_sign_clear.
Qed.

Lemma sqrt_sign_clear x :
  sign_clear (Prim2SF x) → sign_clear (Prim2SF (sqrt x)).
Proof.
  rewrite sqrt_spec.
  destruct (Prim2SF x) as [s|s| |s m e]; simpl; intros Hx; subst; simpl; auto.
  unfold SF64sqrt, SFsqrt.
  destruct (SFsqrt_core_binary _ _ _ _) as [[mz ez] lz].
  apply binary_round_aux_sign_clear.
Qed.

Lemma calculateDistance_sign_clear a b :
  sign_clear (Prim2SF (calculateDistance a b)).
Proof.
  unfold calculateDistance.
  apply sqrt_sign_clear, add_sign_clear; apply square_sign_clear.
Qed.

(** A distance that compares equal to 0 is [+0], never [-0]. *)
Lemma calculateDistance_zero a b :
  is_zero (calculateDistance a b) = true → calculateDistance a b = 0%float.
Proof.
  rewrite is_zero_spec. intros Hz. apply Prim2SF_inj.
  pose proof (calculateDistance_sign_clear a b) as Hs.
  destruct (Prim2SF (calculateDistance a b)); try discriminate Hz.
  simpl in Hs. subst. reflexivity.
Qed.

(** Entering a segment ([progress] is 0) with a positive step. *)
Lemma zero_progress_add_step p st :
  is_zero p = true → (0 <? st)%float = true → (p + st)%float = st.
Proof.
  rewrite is_zero_spec, FloatAxioms.ltb_spec. intros Hp Hst.
  apply Prim2SF_inj. rewrite add_spec.
  change (Prim2SF 0) with (S754_zero false) in Hst.
  destruct (Prim2SF p) as [s| | |]; try discriminate Hp.
  destruct (Prim2SF st) as [[]|[]| |[] m e]; try discriminate Hst; reflexivity.
Qed.

Lemma positive_on_entry s :
  is_zero (progress s) = true → (0 <? step_of (speed s))%float = true →
  (0 <? progress s + step_of (speed s))%float = true.
Proof.
  intros Hz Hst. rewrite (zero_progress_add_step _ _ Hz Hst). exact Hst.
Qed.

(** C4, as the code has it: on a non-terminal segment of distance 0, when
    the progress after adding the step is positive, progress / 0 is
    +Infinity, the ratio is 1 and the indices advance in that same tick,
    with progress reset to 0. *)
Theorem C4_zero_distance_segment (s : SimulationState)
    (current next : Coordinate)
    (Hlt : nextWaypointIndex s < length (waypoints s))
    (Hc : waypoints s !! currentWaypointIndex s = Some current)
    (Hn : waypoints s !! nextWaypointIndex s = Some next)
    (Hd : (calculateDistance current next =? 0)%float = true)
    (Hp : (0 <? progress s + step_of (speed s))%float = true) :
  ratio_of (progress s + step_of (speed s)) (calculateDistance current next)
    = 1%float
  ∧ ∃ s', updateDronePosition s = Some s'
      ∧ currentWaypointIndex s' = currentWaypointIndex s + 1
      ∧ nextWaypointIndex s' = nextWaypointIndex s + 1
      ∧ progress s' = 0%float
      ∧ currentPosition s' = interpolate current next 1.
Proof.
  rewrite (update_on_segment s current next) by assumption.
  rewrite (calculateDistance_zero current next Hd), (ratio_of_zero_distance _ Hp).
  split; [reflexivity|].
  eexists. split; [reflexivity|]. simpl. repeat split; lia.
Qed.

Lemma C4_zero_distance_segment_witness :
  let s := simulationState Scenario.still (Some 1%float) 0 in
  let c := mkCoordinate 0 0 in
  nextWaypointIndex s < length (waypoints s)
  ∧ (calculateDistance c c =? 0)%float = true
  ∧ (0 <? progress s + step_of (speed s))%float = true
  ∧ ratio_of (progress s + step_of (speed s)) (calculateDistance c c) = 1%float
  ∧ ∃ s', updateDronePosition s = Some s'
      ∧ currentWaypointIndex s' = currentWaypointIndex s + 1
      ∧ nextWaypointIndex s' = nextWaypointIndex s + 1
      ∧ progress s' = 0%float
      ∧ currentPosition s' = interpolate c c 1.
Proof.
  intros s c.
  assert (Hlt : nextWaypointIndex s < length (waypoints s)) by (simpl; lia).
  split; [exact Hlt|]. split; [reflexivity|]. split; [reflexivity|].
  exact (C4_zero_distance_segment s c c Hlt eq_refl eq_refl eq_refl eq_refl).
Defined.

(** C4 as stated fails when the step is not positive: after the speed of
    a running session over two equal waypoints is set to 0, the tick
    computes 0 / 0, the ratio is NaN, the indices stay where they were and
    the position becomes NaN. *)
Lemma C4_zero_step_gives_nan :
  let s := set_speed 0 (simulationState Scenario.still (Some 1%float) 0) in
  reachable s
  ∧ nextWaypointIndex s < length (waypoints s)
  ∧ calculateDistance (mkCoordinate 0 0) (mkCoordinate 0 0) = 0%float
  ∧ ratio_of (progress s + step_of (speed s)) 0 = nan
  ∧ ∃ s', updateDronePosition s = Some s'
      ∧ currentWaypointIndex s' = 0 ∧ nextWaypointIndex s' = 1
      ∧ currentPosition s' = mkCoordinate nan nan.
Proof.
  cbv zeta. split.
  { apply reach_speed; [apply reach_start; simpl; lia | reflexivity]. }
  split; [simpl; lia|]. split; [reflexivity|]. split; [reflexivity|].
  eexists. split; [reflexivity|]. repeat split.
Qed.

(** ** Speed zero *)

Lemma float_ltb_irrefl p : (p <? p)%float = false.
Proof.
  rewrite FloatAxioms.ltb_spec. unfold SFltb.
  destruct (Prim2SF p) as [s|s| |s m e] eqn:E; try reflexivity;
    rewrite SFcompare_refl by congruence; reflexivity.
Qed.

(** One tick at speed 0 on an unfinished route. *)
Lemma zero_speed_tick s :
  session_inv s → speed s = 0%float →
  nextWaypointIndex s < length (waypoints s) →
  ∃ s', updateDronePosition s = Some s'
    ∧ session_inv s' ∧ speed s' = 0%float
    ∧ waypoints s' = waypoints s
    ∧ currentWaypointIndex s' = currentWaypointIndex s
    ∧ nextWaypointIndex s' = nextWaypointIndex s
    ∧ complete s' = complete s
    ∧ progress s' = (progress s + 0)%float.
Proof.
  intros Hs Hv Hlt.
  destruct (update_total s Hs) as [s' Hu]. exists s'.
  split; [exact Hu|]. split; [exact (session_inv_update s s' Hs Hu)|].
  destruct Hs as [Hn _ _ Hm _ _].
  destruct (lookup_lt_is_Some_2 (waypoints s) (currentWaypointIndex s))
    as [current Hc]; [lia|].
  destruct (lookup_lt_is_Some_2 (waypoints s) (nextWaypointIndex s))
    as [next Hx]; [lia|].
  rewrite (update_on_segment s current next) in Hu by assumption.
  rewrite Hv in Hu. change (step_of 0) with 0%float in Hu.
  rewrite ratio_of_add_zero, (Hm current next Hc Hx) in Hu.
  injection Hu as <-. simpl. repeat split. exact Hv.
Qed.

Lemma zero_speed_ticks n : ∀ s,
  session_inv s → speed s = 0%float →
  nextWaypointIndex s < length (waypoints s) →
  ∃ sn, advance_n n s = Some sn
    ∧ session_inv sn ∧ speed sn = 0%float
    ∧ waypoints sn = waypoints s
    ∧ currentWaypointIndex sn = currentWaypointIndex s
    ∧ nextWaypointIndex sn = nextWaypointIndex s
    ∧ complete sn = complete s
    ∧ (progress sn = progress s
       ∨ is_zero (progress s) = true ∧ progress sn = 0%float).
Proof.
  induction n as [|n IH]; intros s Hs Hv Hlt.
  - exists s. simpl. split; [reflexivity|]. split; [exact Hs|].
    split; [exact Hv|]. repeat (split; [reflexivity|]). left. reflexivity.
  - destruct (zero_speed_tick s Hs Hv Hlt)
      as (s1 & Hu & Hs1 & Hv1 & Hw1 & Hc1 & Hn1 & Hk1 & Hp1).
    destruct (IH s1 Hs1 Hv1) as (sn & Hrun & Hsn & Hvn & Hwn & Hcn & Hnn & Hkn & Hpn).
    { rewrite Hn1, Hw1. exact Hlt. }
    exists sn. simpl. rewrite Hu. simpl.
    split; [exact Hrun|]. split; [exact Hsn|]. split; [exact Hvn|].
    split; [congruence|]. split; [congruence|]. split; [congruence|].
    split; [congruence|].
    destruct (is_zero (progress s)) eqn:Hz.
    + right. split; [reflexivity|].
      assert (Hz1 : progress s1 = 0%float).
      { rewrite Hp1. apply Prim2SF_inj. rewrite add_zero_step.
        rewrite is_zero_spec in Hz.
        destruct (Prim2SF (progress s)); try discriminate Hz. reflexivity. }
      destruct Hpn as [Hpn|[_ Hpn]]; congruence.
    + left. rewrite (add_zero_step_id _ Hz) in Hp1.
      destruct Hpn as [Hpn|[Hzn _]]; congruence.
Qed.

(** C9: after setSpeed(0) on a running session that is on a segment of
    its route, the step is 0 and every later tick returns with progress
    not above what it was, the indices where they were and isComplete
    still false, however many ticks follow. *)
Theorem C9_speed_zero_never_completes (s : SimulationState) (n : nat)
    (Hs : reachable s)
    (Hmid : nextWaypointIndex s < length (waypoints s)) :
  let s0 := set_speed 0 s in
  step_of (speed s0) = 0%float
  ∧ ∃ sn, advance_n n s0 = Some sn
      ∧ complete sn = false
      ∧ (progress s <? progress sn)%float = false
      ∧ currentWaypointIndex sn = currentWaypointIndex s
      ∧ nextWaypointIndex sn = nextWaypointIndex s
      ∧ (∀ sn', updateDronePosition sn = Some sn' →
           (progress sn <? progress sn')%float = false
           ∧ complete sn' = false).
Proof.
  intros s0. subst s0. split; [reflexivity|].
  pose proof (reachable_inv s Hs) as Hinv.
  assert (Hk : complete s = false).
  { destruct (complete s) eqn:Hk; [|reflexivity].
    apply (inv_complete s Hinv) in Hk. lia. }
  destruct (zero_speed_ticks n (set_speed 0 s)
              (session_inv_speed 0 s Hinv) eq_refl Hmid)
    as (sn & Hrun & Hsn & Hvn & Hwn & Hcn & Hnn & Hkn & Hpn).
  change (complete (set_speed 0 s)) with (complete s) in Hkn.
  exists sn. split; [exact Hrun|]. split; [congruence|].
  split.
  { simpl in Hpn. destruct Hpn as [->|[Hz ->]].
    - apply float_ltb_irrefl.
    - rewrite FloatAxioms.ltb_spec. rewrite is_zero_spec in Hz.
      destruct (Prim2SF (progress s)); try discriminate Hz. reflexivity. }
  split; [exact Hcn|]. split; [exact Hnn|].
  intros sn' Hu.
  destruct (zero_speed_tick sn Hsn Hvn) as (s1 & Hu1 & _ & _ & _ & _ & _ & Hk1 & Hp1).
  { rewrite Hnn, Hwn. exact Hmid. }
  rewrite Hu in Hu1. injection Hu1 as <-.
  split.
  - rewrite Hp1. apply add_zero_step_not_lt.
  - congruence.
Qed.

Lemma C9_speed_zero_never_completes_witness :
  let s := simulationState Scenario.route (Some 1%float) 0 in
  reachable s
  ∧ nextWaypointIndex s < length (waypoints s)
  ∧ ∃ sn, advance_n 3 (set_speed 0 s) = Some sn
      ∧ complete sn = false
      ∧ (progress s <? progress sn)%float = false.
Proof.
  intros s.
  assert (Hs : reachable s) by (apply reach_start; simpl; lia).
  assert (Hmid : nextWaypointIndex s < length (waypoints s)) by (simpl; lia).
  split; [exact Hs|]. split; [exact Hmid|].
  destruct (C9_speed_zero_never_completes s 3 Hs Hmid)
    as (_ & sn & Hrun & Hk & Hp & _).
  exists sn. split; [exact Hrun|]. split; [exact Hk|exact Hp].
Defined.

(** ** The ranking is strictly monotone and bounded *)

Lemma digits2_pos_gt m : (Z.pos m < 2 ^ Z.pos (digits2_pos m))%Z.
Proof.
  induction m as [m IH|m IH|]; simpl digits2_pos;
    rewrite ?Pos2Z.inj_succ, ?Z.pow_succ_r by lia; lia.
Qed.

Lemma valid_finite_bounds s m e :
  valid_binary (S754_finite s m e) = true →
  (-1074 ≤ e ≤ 971 ∧ 0 < Z.pos m < 2 ^ 53)%Z.
Proof.
  unfold SpecFloat.valid_binary, bounded, canonical_mantissa, fexp.
  change (SpecFloat.emin prec emax) with (-1074)%Z.
  change (emax - prec)%Z with 971%Z. change prec with 53%Z.
  intros H. apply andb_true_iff in H as [H1 H2].
  apply Z.eqb_eq in H1. apply Z.leb_le in H2.
  pose proof (digits2_pos_gt m) as Hm.
  assert (Hd : (Z.pos (digits2_pos m) ≤ 53)%Z) by lia.
  assert (Hpow : (2 ^ Z.pos (digits2_pos m) ≤ 2 ^ 53)%Z)
    by (apply Z.pow_le_mono_r; lia).
  lia.
Qed.

Lemma rank_finite_bounds s m e :
  valid_binary (S754_finite s m e) = true →
  (0 < rank_finite m e < rank_bound)%Z.
Proof.
  intros H. apply valid_finite_bounds in H. unfold rank_finite, rank_bound.
  assert (Hp : (0 < 2 ^ 53)%Z) by reflexivity.
  revert H Hp. generalize (2 ^ 53)%Z. intros P H Hp. nia.
Qed.

Lemma rank_bounded x :
  valid_binary x = true → (- rank_bound ≤ rank x ≤ rank_bound)%Z.
Proof.
  assert (Hb : (0 < rank_bound)%Z) by reflexivity.
  destruct x as [s|[]| |[] m e]; cbn [rank cond_Zopp]; intros H; try lia;
    apply rank_finite_bounds in H; lia.
Qed.

Lemma rank_finite_lt m1 e1 m2 e2 :
  (0 < Z.pos m1 < 2 ^ 53)%Z → (0 < Z.pos m2 < 2 ^ 53)%Z →
  match (e1 ?= e2)%Z with
  | Lt => Lt
  | Gt => Gt
  | Eq => Pos.compare_cont Eq m1 m2
  end = Lt →
  (rank_finite m1 e1 < rank_finite m2 e2)%Z.
Proof.
  intros H1 H2 Hc. unfold rank_finite.
  destruct (e1 ?= e2)%Z eqn:He; try discriminate Hc.
  - apply Z.compare_eq in He. subst e2.
    change (m1 < m2)%positive in Hc.
    generalize ((e1 + 1074) * 2 ^ 53)%Z. intros z. lia.
  - change (e1 < e2)%Z in He.
    assert (Hp : (0 < 2 ^ 53)%Z) by reflexivity.
    assert (Hm : ((e1 + 1074 + 1) * 2 ^ 53 ≤ (e2 + 1074) * 2 ^ 53)%Z)
      by (apply Z.mul_le_mono_nonneg_r; lia).
    revert H1 H2 Hp Hm. generalize (2 ^ 53)%Z. intros P H1 H2 Hp Hm. nia.
Qed.

Lemma rank_lt x y :
  valid_binary x = true → valid_binary y = true →
  SFltb x y = true → (rank x < rank y)%Z.
Proof.
  assert (Hb : (0 < rank_bound)%Z) by reflexivity.
  unfold SFltb.
  destruct x as [sx|sx| |sx mx ex], y as [sy|sy| |sy my ey];
    intros Hx Hy; cbn [SFcompare rank]; try discriminate;
    try (apply rank_finite_bounds in Hx as Hrx);
    try (apply rank_finite_bounds in Hy as Hry);
    try (destruct sx; try discriminate); try (destruct sy; try discriminate);
    cbn [cond_Zopp]; try lia.
  - (* both negative *)
    intros Hc. apply valid_finite_bounds in Hx, Hy.
    assert (rank_finite my ey < rank_finite mx ex)%Z; [|lia].
    apply rank_finite_lt; try lia.
    rewrite Z.compare_antisym.
    destruct (ex ?= ey)%Z; simpl in *; try discriminate; try reflexivity.
    pose proof (Pos.compare_cont_antisym mx my Eq) as Ha. simpl in Ha.
    rewrite <- Ha. destruct (Pos.compare_cont Eq mx my); try discriminate.
    reflexivity.
  - (* both positive *)
    intros Hc. apply valid_finite_bounds in Hx, Hy.
    apply rank_finite_lt; try lia.
    destruct (ex ?= ey)%Z; try discriminate; try reflexivity.
    destruct (Pos.compare_cont Eq mx my); try discriminate. reflexivity.
Qed.

Lemma float_rank_lt p q :
  (p <? q)%float = true → (rank (Prim2SF p) < rank (Prim2SF q))%Z.
Proof.
  rewrite FloatAxioms.ltb_spec. apply rank_lt; apply Prim2SF_valid.
Qed.

Lemma float_rank_bounded p :
  (- rank_bound ≤ rank (Prim2SF p) ≤ rank_bound)%Z.
Proof. apply rank_bounded, Prim2SF_valid. Qed.

(** ** Completion of a route *)

Lemma update_frame s s' :
  updateDronePosition s = Some s' →
  waypoints s' = waypoints s
  ∧ (nextWaypointIndex s' = nextWaypointIndex s
     ∨ nextWaypointIndex s' = S (nextWaypointIndex s)).
Proof.
  unfold updateDronePosition.
  destruct (length (waypoints s) <=? nextWaypointIndex s)%nat.
  - intros [= <-]. simpl. auto.
  - destruct (waypoints s !! currentWaypointIndex s); [|discriminate].
    destruct (waypoints s !! nextWaypointIndex s); [|discriminate].
    simpl. destruct (Num.geb _ _); intros [= <-]; simpl; auto.
Qed.

Lemma remaining_nonneg s : session_inv s → (0 ≤ remaining s)%Z.
Proof.
  intros _. unfold remaining.
  pose proof (float_rank_bounded (progress s)) as Hr.
  assert (Hb : (0 < rank_bound)%Z) by reflexivity. nia.
Qed.

Lemma remaining_decreases s s' :
  nextWaypointIndex s < length (waypoints s) →
  updateDronePosition s = Some s' → progressing s →
  (remaining s' < remaining s)%Z.
Proof.
  intros Hlt Hu Hp. specialize (Hp s' Hu Hlt).
  destruct (update_frame s s' Hu) as [Hw Hn].
  unfold remaining. rewrite Hw.
  pose proof (float_rank_bounded (progress s)) as Hr.
  pose proof (float_rank_bounded (progress s')) as Hr'.
  assert (Hb : (0 < rank_bound)%Z) by reflexivity.
  assert (Hstep : nextWaypointIndex s' = S (nextWaypointIndex s)
                  ∨ nextWaypointIndex s' = nextWaypointIndex s
                    ∧ (progress s <? progress s')%float = true)
    by (destruct Hp, Hn; auto).
  destruct Hstep as [->|[-> Hlt']].
  - replace (length (waypoints s) - nextWaypointIndex s)
      with (S (length (waypoints s) - S (nextWaypointIndex s))) by lia.
    rewrite Nat2Z.inj_succ. lia.
  - apply float_rank_lt in Hlt'. lia.
Qed.

(** Once the indices are past the last segment, ticks change nothing
    but the flag. *)
Lemma advance_n_at_end n : ∀ s s',
  length (waypoints s) ≤ nextWaypointIndex s →
  advance_n n s = Some s' →
  length (waypoints s') ≤ nextWaypointIndex s'.
Proof.
  induction n as [|n IH]; simpl; intros s s' Hend H.
  - injection H as <-. exact Hend.
  - rewrite update_at_end in H by exact Hend. simpl in H.
    apply (IH (set_isComplete true s) s' Hend H).
Qed.

Lemma reaches_end k : ∀ s,
  session_inv s → (remaining s ≤ Z.of_nat k)%Z →
  (∀ n s', advance_n n s = Some s' → progressing s') →
  ∃ n s', advance_n n s = Some s'
    ∧ length (waypoints s') ≤ nextWaypointIndex s'.
Proof.
  induction k as [|k IH]; intros s Hs Hk Hrun;
    (destruct (decide (nextWaypointIndex s < length (waypoints s)))
      as [Hlt|Hge]; [|exists 0, s; split; [reflexivity|lia]]);
    destruct (update_total s Hs) as [s1 Hu];
    pose proof (session_inv_update s s1 Hs Hu) as Hs1;
    pose proof (remaining_decreases s s1 Hlt Hu (Hrun 0 s eq_refl)) as Hdec;
    pose proof (remaining_nonneg s1 Hs1) as Hpos.
  - lia.
  - destruct (IH s1 Hs1) as (n & s' & Hn & Hend); [lia| |].
    + intros n s' Hn. apply (Hrun (S n)). simpl. rewrite Hu. exact Hn.
    + exists (S n), s'. simpl. rewrite Hu. split; assumption.
Qed.

(** C5, as the code has it: from any reachable state, if no tick stalls
    (each tick on an unfinished route either moves to the next segment or
    strictly increases progress), then finitely many ticks reach
    isComplete = true. *)
Theorem C5_completes_unless_stalled (s : SimulationState)
    (Hs : reachable s)
    (Hrun : ∀ n s', advance_n n s = Some s' → progressing s') :
  ∃ n s', advance_n n s = Some s' ∧ complete s' = true.
Proof.
  pose proof (reachable_inv s Hs) as Hinv.
  pose proof (remaining_nonneg s Hinv) as Hpos.
  destruct (reaches_end (Z.to_nat (remaining s)) s Hinv) as (n & s1 & Hn & Hend);
    [lia|exact Hrun|].
  exists (n + 1), (set_isComplete true s1). split; [|reflexivity].
  apply (advance_n_add n 1 s s1); [exact Hn|].
  simpl. rewrite update_at_end by exact Hend. reflexivity.
Qed.

(** The hypothesis of C5 holds from a state that is at the end of its
    route. *)
Lemma progressing_at_end s :
  length (waypoints s) ≤ nextWaypointIndex s →
  ∀ n s', advance_n n s = Some s' → progressing s'.
Proof.
  intros Hend n s' Hn s'' _ Hlt.
  pose proof (advance_n_at_end n s s' Hend Hn). lia.
Qed.

Lemma never_stalls_sound fuel : ∀ s,
  never_stalls fuel s = true →
  ∀ n s', advance_n n s = Some s' → progressing s'.
Proof.
  induction fuel as [|fuel IH]; intros s H; simpl in H;
    (destruct (length (waypoints s) <=? nextWaypointIndex s)%nat eqn:Hend;
      [apply Nat.leb_le in Hend; apply progressing_at_end; exact Hend|]).
  - discriminate H.
  - destruct (updateDronePosition s) as [s1|] eqn:Hu; [|discriminate H].
    apply andb_true_iff in H as [Hstep Hrest].
    intros [|n] s' Hn; simpl in Hn.
    + injection Hn as <-. intros s2 Hu2 _.
      rewrite Hu in Hu2. injection Hu2 as <-.
      apply orb_true_iff in Hstep as [Hi|Hp]; [left|right; exact Hp].
      apply Nat.eqb_eq in Hi. exact Hi.
    + rewrite Hu in Hn. simpl in Hn. exact (IH s1 Hrest n s' Hn).
Qed.

(** The reference route at speed 1 does not stall: checked over the
    100002 ticks it takes. *)
Lemma C5_completes_unless_stalled_witness :
  let s := simulationState Scenario.route (Some 1%float) 0 in
  reachable s
  ∧ (∀ n s', advance_n n s = Some s' → progressing s')
  ∧ ∃ n s', advance_n n s = Some s' ∧ complete s' = true.
Proof.
  intros s.
  assert (Hs : reachable s) by (apply reach_start; simpl; lia).
  assert (Hrun : ∀ n s', advance_n n s = Some s' → progressing s').
  { apply (never_stalls_sound (N.to_nat 100002)). vm_compute. reflexivity. }
  split; [exact Hs|]. split; [exact Hrun|].
  exact (C5_completes_unless_stalled s Hs Hrun).
Defined.

(** On the reference route at speed 1 the first segment is finished by
    tick 100001 (after 100000 ticks the accumulated progress is still
    below 1) and isComplete is set by tick 100002. *)
Remark reference_route_ticks :
  let s := simulationState Scenario.route (Some 1%float) 0 in
  (nextWaypointIndex <$> advance_n (N.to_nat 100000) s) = Some 1
  ∧ (nextWaypointIndex <$> advance_n (N.to_nat 100001) s) = Some 2
  ∧ (complete <$> advance_n (N.to_nat 100001) s) = Some false
  ∧ (complete <$> advance_n (N.to_nat 100002) s) = Some true.
Proof.
  cbv zeta.
  split; [vm_compute; reflexivity|]. split; [vm_compute; reflexivity|].
  split; vm_compute; reflexivity.
Qed.

(** C5 as stated fails for a positive speed whose step underflows: with
    speed 2^-1074 the product speed * 0.0001 rounds to 0, so every tick
    leaves the started session exactly as it was and isComplete is never
    set. *)
Lemma C5_tiny_speed_never_completes :
  let s := simulationState Scenario.route (Some Scenario.tiny) 0 in
  2 ≤ length Scenario.route
  ∧ (0 <? speed s)%float = true
  ∧ step_of (speed s) = 0%float
  ∧ updateDronePosition s = Some s
  ∧ ∀ n, advance_n n s = Some s ∧ complete s = false.
Proof.
  cbv zeta. split; [simpl; lia|]. split; [reflexivity|].
  split; [reflexivity|]. split; [reflexivity|].
  induction n as [|n [IH _]]; split; try reflexivity.
  simpl advance_n.
  change (updateDronePosition
            (simulationState Scenario.route (Some Scenario.tiny) 0))
    with (Some (simulationState Scenario.route (Some Scenario.tiny) 0)).
  exact IH.
Qed.

(** ** Starting a simulation *)

(** C2: a start request whose waypoint list is absent or shorter than 2
    only sends the ERROR message to the client: the registry, the session
    objects and the armed timers are exactly what they were, so no session
    is created, no clock is armed and a session already running for the
    connection is untouched. *)
Theorem C2_start_rejects_short_routes (now : Z) (ws : WebSocketWithId)
    (data : WebSocketMessage) (srv : Server) (wsid : string)
    (Hid : ws_id ws = Some wsid)
    (Hshort : ∀ wps, msg_waypoints data = Some wps → length wps < 2) :
  let srv' := handleStartSimulation now ws data srv in
  srv' = sendError ws "At least two waypoints are required" srv
  ∧ sent srv' =
      sent srv ++ [(socket ws, ERROR "At least two waypoints are required")]
  ∧ activeSimulations srv' = activeSimulations srv
  ∧ heap srv' = heap srv
  ∧ intervals srv' = intervals srv
  ∧ next_ref srv' = next_ref srv.
Proof.
  cbv zeta.
  assert (H : handleStartSimulation now ws data srv
              = sendError ws "At least two waypoints are required" srv).
  { unfold handleStartSimulation. rewrite Hid.
    destruct (msg_waypoints data) as [wps|]; [|reflexivity].
    specialize (Hshort wps eq_refl). apply Nat.ltb_lt in Hshort.
    rewrite Hshort. reflexivity. }
  rewrite H. repeat split.
Qed.

Lemma C2_start_rejects_short_routes_witness :
  let running := Scenario.started 0 in
  let data := mkMessage "START_SIMULATION" (Some [mkCoordinate 0 0]) None in
  let srv' := handleStartSimulation 1 Scenario.ws data running in
  ws_id Scenario.ws = Some "1700000000000"
  ∧ (∀ wps, msg_waypoints data = Some wps → length wps < 2)
  ∧ activeSimulations srv' = activeSimulations running
  ∧ heap srv' = heap running
  ∧ intervals srv' = intervals running
  ∧ sent srv' =
      sent running ++ [(7, ERROR "At least two waypoints are required")].
Proof.
  intros running data srv'.
  assert (Hid : ws_id Scenario.ws = Some "1700000000000") by reflexivity.
  assert (Hshort : ∀ wps, msg_waypoints data = Some wps → length wps < 2).
  { intros wps H. injection H as <-. simpl. lia. }
  split; [exact Hid|]. split; [exact Hshort|].
  destruct (C2_start_rejects_short_routes 1 Scenario.ws data running _ Hid Hshort)
    as (_ & Hsent & Hsims & Hheap & Htimers & _).
  split; [exact Hsims|]. split; [exact Hheap|]. split; [exact Htimers|].
  exact Hsent.
Defined.

(** C7: a start request with at least two waypoints registers, under the
    connection id, a fresh session object with currentIndex 0, nextIndex 1,
    progress 0, the given speed (1 when it is missing or falsy), not
    paused, positioned at waypoints[0], not complete and holding the total
    route distance; it clears the timer of the session it replaces, arms a
    timer on the new one and sends SIMULATION_STARTED with waypoints[0]. *)
Theorem C7_start_initialises_session (now : Z) (ws : WebSocketWithId)
    (data : WebSocketMessage) (srv : Server) (wsid : string)
    (wps : list Coordinate)
    (Hid : ws_id ws = Some wsid)
    (Hwps : msg_waypoints data = Some wps)
    (Hlen : 2 ≤ length wps) :
  let srv' := handleStartSimulation now ws data srv in
  let ref := next_ref srv in
  ∃ w0 st,
    wps !! 0 = Some w0
    ∧ activeSimulations srv' = <[wsid := mkActive ref ref]> (activeSimulations srv)
    ∧ heap srv' !! ref = Some st
    ∧ waypoints st = wps
    ∧ currentWaypointIndex st = 0 ∧ nextWaypointIndex st = 1
    ∧ progress st = 0%float
    ∧ speed st = Num.or_default (msg_speed data) 1
    ∧ (msg_speed data = Some (speed st) ∨ speed st = 1%float)
    ∧ isPaused st = false
    ∧ currentPosition st = w0
    ∧ complete st = false
    ∧ totalDistance st = Some (calculateTotalDistance wps)
    ∧ startTime st = now
    ∧ intervals srv' =
        <[ref := mkClosure ws ref]>
          (match activeSimulations srv !! wsid with
           | Some old => delete (interval old) (intervals srv)
           | None => intervals srv
           end)
    ∧ sent srv' = sent srv ++ [(socket ws, SIMULATION_STARTED w0)].
Proof.
  cbv zeta.
  destruct wps as [|w0 rest]; [simpl in Hlen; lia|].
  exists w0, (simulationState (w0 :: rest) (msg_speed data) now).
  unfold handleStartSimulation. rewrite Hid, Hwps.
  assert (Hge : (length (w0 :: rest) <? 2)%nat = false)
    by (apply Nat.ltb_ge; exact Hlen).
  rewrite Hge.
  change ((w0 :: rest) !! 0) with (Some w0).
  destruct (activeSimulations srv !! wsid) as [old|]; simpl;
    rewrite lookup_insert_eq;
    (repeat (split; [reflexivity|])); (split; [|repeat split]);
    unfold Num.or_default; destruct (msg_speed data) as [v|]; auto;
    destruct (Num.truthy v); auto.
Qed.

Lemma C7_start_initialises_session_witness :
  let srv' := Scenario.started 5 in
  ws_id Scenario.ws = Some "1700000000000"
  ∧ msg_waypoints Scenario.start = Some Scenario.route
  ∧ 2 ≤ length Scenario.route
  ∧ ∃ st, heap srv' !! 0 = Some st
      ∧ currentWaypointIndex st = 0 ∧ nextWaypointIndex st = 1
      ∧ currentPosition st = mkCoordinate 0 0
      ∧ sent srv' = [(7, SIMULATION_STARTED (mkCoordinate 0 0))].
Proof.
  intros srv'.
  assert (Hid : ws_id Scenario.ws = Some "1700000000000") by reflexivity.
  assert (Hwps : msg_waypoints Scenario.start = Some Scenario.route)
    by reflexivity.
  assert (Hlen : 2 ≤ length Scenario.route) by (simpl; lia).
  split; [exact Hid|]. split; [exact Hwps|]. split; [exact Hlen|].
  destruct (C7_start_initialises_session 5 Scenario.ws Scenario.start
              empty_server _ Scenario.route Hid Hwps Hlen)
    as (w0 & st & Hw0 & _ & Hst & _ & Hc & Hn & _ & _ & _ & _ & Hpos & _ & _ & _ & _ & Hsent).
  exists st. split; [exact Hst|]. split; [exact Hc|]. split; [exact Hn|].
  injection Hw0 as <-. split; [exact Hpos|exact Hsent].
Defined.

(** ** Pause, resume and stop *)

Lemma update_state_twice clientId f g srv :
  update_state clientId f (update_state clientId g srv)
  = update_state clientId (f ∘ g) srv.
Proof.
  unfold update_state.
  destruct (activeSimulations srv !! clientId) as [a|] eqn:Ha; simpl;
    rewrite Ha; [|reflexivity].
  unfold with_heap. simpl. rewrite alter_alter_eq. reflexivity.
Qed.

Lemma update_state_ext clientId f g srv :
  (∀ st, f st = g st) →
  update_state clientId f srv = update_state clientId g srv.
Proof.
  intros H. unfold update_state.
  destruct (activeSimulations srv !! clientId) as [a|]; [|reflexivity].
  f_equal. apply alter_ext. auto.
Qed.

(** C8: pausing twice leaves the server exactly as pausing once does, and
    so does stopping twice; stopping a connection that has no session
    changes nothing. *)
Theorem C8_pause_and_stop_idempotent (clientId : string) (srv : Server) :
  handlePauseSimulation clientId (handlePauseSimulation clientId srv)
    = handlePauseSimulation clientId srv
  ∧ handleStopSimulation clientId (handleStopSimulation clientId srv)
    = handleStopSimulation clientId srv
  ∧ activeSimulations (handleStopSimulation clientId srv) !! clientId = None
  ∧ (activeSimulations srv !! clientId = None →
       handleStopSimulation clientId srv = srv).
Proof.
  split; [|split; [|split]].
  - unfold handlePauseSimulation. rewrite update_state_twice.
    apply update_state_ext. reflexivity.
  - unfold handleStopSimulation at 2 3.
    destruct (activeSimulations srv !! clientId) as [a|] eqn:Ha.
    + unfold handleStopSimulation. simpl. rewrite lookup_delete_eq. reflexivity.
    + unfold handleStopSimulation. rewrite Ha. reflexivity.
  - unfold handleStopSimulation.
    destruct (activeSimulations srv !! clientId) as [a|] eqn:Ha; simpl.
    + apply lookup_delete_eq.
    + exact Ha.
  - intros Ha. unfold handleStopSimulation. rewrite Ha. reflexivity.
Qed.

Lemma set_isPaused_running st :
  isPaused st = false → set_isPaused false (set_isPaused true st) = st.
Proof. destruct st. simpl. intros ->. reflexivity. Qed.

Lemma paused_tick t cl st srv :
  intervals srv !! t = Some cl → heap srv !! cl_state cl = Some st →
  isPaused st = true → interval_callback t srv = Some srv.
Proof.
  intros Ht Hst Hp. unfold interval_callback.
  rewrite Ht, Hst. simpl. rewrite Hp. reflexivity.
Qed.

(** ** The server invariant *)

Lemma server_inv_empty : server_inv empty_server.
Proof. split; intros ? ?; simpl; rewrite lookup_empty; discriminate. Qed.

(** Two registered sessions never share a timer. *)
Lemma server_inv_interval_inj srv i j a b :
  server_inv srv →
  activeSimulations srv !! i = Some a → activeSimulations srv !! j = Some b →
  interval a = interval b → i = j.
Proof.
  intros [H1 _] Ha Hb Heq.
  destruct (H1 i a Ha) as (_ & cl & _ & Ht & _ & Hi & _).
  destruct (H1 j b Hb) as (_ & cl' & _ & Ht' & _ & Hj & _).
  rewrite Heq, Ht' in Ht. injection Ht as ->. congruence.
Qed.

(** The log of sent messages plays no part in the invariant. *)
Lemma server_inv_sent srv log :
  server_inv srv →
  server_inv (mkServer (activeSimulations srv) (heap srv) (intervals srv)
                (next_ref srv) log).
Proof. intros H. exact H. Qed.

(** Replacing the state object of a registered session by a live
    reachable state. *)
Lemma server_inv_store srv i a st' log :
  server_inv srv → activeSimulations srv !! i = Some a →
  reachable st' → complete st' = false →
  server_inv (mkServer (activeSimulations srv) (<[state a := st']> (heap srv))
                (intervals srv) (next_ref srv) log).
Proof.
  intros [H1 H2] Ha Hr Hc. split; simpl; [|exact H2].
  intros j b Hb.
  destruct (H1 j b Hb) as (Heq & cl & st & Ht & Hcl & Hj & Hst & Hrs & Hcs).
  split; [exact Heq|].
  destruct (decide (state a = state b)) as [E|NE].
  - exists cl, st'. rewrite E, lookup_insert_eq. repeat split; assumption.
  - exists cl, st. rewrite lookup_insert_ne by exact NE.
    repeat split; assumption.
Qed.

Lemma server_inv_update_state srv clientId f :
  (∀ st, reachable st → complete st = false →
         reachable (f st) ∧ complete (f st) = false) →
  server_inv srv → server_inv (update_state clientId f srv).
Proof.
  intros Hf Hinv. unfold update_state.
  destruct (activeSimulations srv !! clientId) as [a|] eqn:Ha; [|exact Hinv].
  destruct (proj1 Hinv _ _ Ha) as (_ & cl & st & _ & _ & _ & Hst & Hr & Hc).
  destruct (Hf st Hr Hc) as [Hr' Hc'].
  replace (alter f (state a) (heap srv)) with (<[state a := f st]> (heap srv)).
  - apply (server_inv_store srv clientId a (f st) (sent srv) Hinv Ha Hr' Hc').
  - apply map_eq. intros l. destruct (decide (state a = l)) as [<-|NE].
    + rewrite lookup_insert_eq, lookup_alter_eq, Hst. reflexivity.
    + rewrite lookup_insert_ne, lookup_alter_ne by exact NE. reflexivity.
Qed.

(** Removing a registered session together with its timer; its state
    object may be left in any condition. *)
Lemma server_inv_remove srv i a h log :
  server_inv srv → activeSimulations srv !! i = Some a →
  (∀ l, l ≠ state a → h !! l = heap srv !! l) →
  server_inv (mkServer (delete i (activeSimulations srv)) h
                (delete (interval a) (intervals srv)) (next_ref srv) log).
Proof.
  intros Hinv Ha Hh. pose proof Hinv as [H1 H2]. split; simpl.
  - intros j b Hb. apply lookup_delete_Some in Hb as [Hne Hb].
    destruct (H1 j b Hb) as (Heq & cl & st & Ht & Hcl & Hj & Hst & Hrs & Hcs).
    split; [exact Heq|]. exists cl, st.
    assert (Hti : interval a ≠ interval b).
    { intros E. apply Hne. exact (server_inv_interval_inj srv i j a b Hinv Ha Hb E). }
    rewrite lookup_delete_ne by exact Hti.
    rewrite Hh.
    + repeat split; assumption.
    + destruct (H1 i a Ha) as (Heqa & _). congruence.
  - intros t cl Ht. apply lookup_delete_Some in Ht as [Hne Ht].
    destruct (H2 t cl Ht) as (Hcl & Hlt & j & Hj & Hreg).
    split; [exact Hcl|]. split; [exact Hlt|]. exists j. split; [exact Hj|].
    rewrite lookup_delete_ne; [exact Hreg|].
    intros ->. rewrite Ha in Hreg. injection Hreg as ->. apply Hne. reflexivity.
Qed.

Lemma server_inv_stop srv clientId :
  server_inv srv → server_inv (handleStopSimulation clientId srv).
Proof.
  intros Hinv. unfold handleStopSimulation.
  destruct (activeSimulations srv !! clientId) as [a|] eqn:Ha; [|exact Hinv].
  apply (server_inv_remove srv clientId a (heap srv) (sent srv) Hinv Ha).
  reflexivity.
Qed.

Lemma server_inv_start srv now ws data :
  server_inv srv → server_inv (handleStartSimulation now ws data srv).
Proof.
  intros Hinv. unfold handleStartSimulation.
  destruct (ws_id ws) as [wsid|] eqn:Hid; [|exact Hinv].
  destruct (msg_waypoints data) as [wps|]; [|exact Hinv].
  destruct (length wps <? 2)%nat eqn:Hlen; [exact Hinv|].
  apply Nat.ltb_ge in Hlen.
  match goal with
  | |- server_inv (match _ with Some w0 => ws_send _ _ ?s | None => ?s end) =>
      assert (Hgoal : server_inv s);
        [|destruct (wps !! 0); exact Hgoal]
  end.
  pose proof Hinv as [H1 H2].
  set (srv1 := match activeSimulations srv !! wsid with
               | Some old => clearInterval (interval old) srv
               | None => srv
               end).
  assert (Hsims : activeSimulations srv1 = activeSimulations srv)
    by (unfold srv1; destruct (activeSimulations srv !! wsid); reflexivity).
  assert (Hheap : heap srv1 = heap srv)
    by (unfold srv1; destruct (activeSimulations srv !! wsid); reflexivity).
  assert (Href : next_ref srv1 = next_ref srv)
    by (unfold srv1; destruct (activeSimulations srv !! wsid); reflexivity).
  assert (Htimers : ∀ t cl, intervals srv1 !! t = Some cl →
            intervals srv !! t = Some cl
            ∧ ∀ old, activeSimulations srv !! wsid = Some old → t ≠ interval old).
  { intros t cl. unfold srv1.
    destruct (activeSimulations srv !! wsid) as [old|]; simpl.
    - intros Ht. apply lookup_delete_Some in Ht as [Hne Ht].
      split; [exact Ht|]. intros ? [= <-]. congruence.
    - intros Ht. split; [exact Ht|]. discriminate. }
  assert (Hkeep : ∀ t cl, intervals srv !! t = Some cl →
            (∀ old, activeSimulations srv !! wsid = Some old → t ≠ interval old) →
            intervals srv1 !! t = Some cl).
  { intros t cl Ht Hne. unfold srv1.
    destruct (activeSimulations srv !! wsid) as [old|]; simpl; [|exact Ht].
    rewrite lookup_delete_ne; [exact Ht|]. intros E. exact (Hne old eq_refl (eq_sym E)). }
  rewrite Hsims, Hheap, Href. split; simpl.
  - intros j b Hb. destruct (decide (wsid = j)) as [<-|Hne].
    + rewrite lookup_insert_eq in Hb. injection Hb as <-. simpl.
      split; [reflexivity|].
      exists (mkClosure ws (next_ref srv)),
             (simulationState wps (msg_speed data) now).
      rewrite !lookup_insert_eq. repeat split; try assumption.
      apply reach_start. exact Hlen.
    + rewrite lookup_insert_ne in Hb by exact Hne.
      destruct (H1 j b Hb) as (Heq & cl & st & Ht & Hcl & Hj & Hst & Hrs & Hcs).
      destruct (H2 _ _ Ht) as (_ & Hlt & _).
      split; [exact Heq|]. exists cl, st.
      rewrite !lookup_insert_ne by (rewrite ?Heq; lia).
      split; [|repeat split; assumption].
      apply Hkeep; [exact Ht|]. intros old Hold E.
      apply Hne. exact (server_inv_interval_inj srv wsid j old b Hinv Hold Hb (eq_sym E)).
  - intros t cl Ht. destruct (decide (next_ref srv = t)) as [<-|Hne].
    + rewrite lookup_insert_eq in Ht. injection Ht as <-. simpl.
      split; [reflexivity|]. split; [lia|]. exists wsid.
      rewrite lookup_insert_eq. split; [exact Hid|reflexivity].
    + rewrite lookup_insert_ne in Ht by exact Hne.
      apply Htimers in Ht as [Ht Hold].
      destruct (H2 t cl Ht) as (Hcl & Hlt & j & Hj & Hreg).
      split; [exact Hcl|]. split; [lia|]. exists j. split; [exact Hj|].
      rewrite lookup_insert_ne; [exact Hreg|].
      intros <-. exact (Hold _ Hreg eq_refl).
Qed.

(** An armed timer always finds its state object, in range. *)
Lemma server_inv_timer_state srv t cl :
  server_inv srv → intervals srv !! t = Some cl →
  ∃ i st, ws_id (cl_ws cl) = Some i
    ∧ activeSimulations srv !! i = Some (mkActive t t)
    ∧ cl_state cl = t
    ∧ heap srv !! t = Some st ∧ reachable st ∧ complete st = false.
Proof.
  intros [H1 H2] Ht.
  destruct (H2 t cl Ht) as (Hcl & _ & i & Hi & Hreg).
  destruct (H1 i _ Hreg) as (_ & cl' & st & _ & _ & _ & Hst & Hr & Hc).
  exists i, st. repeat split; assumption.
Qed.

Lemma server_inv_timer srv t srv' :
  server_inv srv → interval_callback t srv = Some srv' → server_inv srv'.
Proof.
  intros Hinv. unfold interval_callback.
  destruct (intervals srv !! t) as [cl|] eqn:Ht; [|intros [= <-]; exact Hinv].
  destruct (server_inv_timer_state srv t cl Hinv Ht)
    as (i & st & Hi & Hreg & Hcl & Hst & Hr & Hc).
  rewrite Hcl, Hst. simpl.
  destruct (isPaused st) eqn:Hp; [intros [= <-]; exact Hinv|].
  destruct (updateDronePosition st) as [st'|] eqn:Hu; [|discriminate].
  simpl. pose proof (reach_tick st st' Hr Hc Hp Hu) as Hr'.
  destruct (complete st') eqn:Hc'.
  - rewrite Hi. intros [= <-].
    apply (server_inv_remove srv i (mkActive t t) _ _ Hinv Hreg).
    intros l Hne. simpl in Hne. apply lookup_insert_ne. congruence.
  - intros [= <-].
    apply (server_inv_store srv i (mkActive t t) st' _ Hinv Hreg Hr' Hc').
Qed.

(** Under the invariant no timer callback raises. *)
Lemma timer_never_raises srv t :
  server_inv srv → ∃ srv', interval_callback t srv = Some srv'.
Proof.
  intros Hinv. unfold interval_callback.
  destruct (intervals srv !! t) as [cl|] eqn:Ht; [|eauto].
  destruct (server_inv_timer_state srv t cl Hinv Ht)
    as (i & st & Hi & Hreg & Hcl & Hst & Hr & Hc).
  rewrite Hcl, Hst. simpl.
  destruct (isPaused st); [eauto|].
  destruct (update_total st (reachable_inv st Hr)) as [st' ->]. simpl.
  destruct (complete st'); [|eauto]. destruct (ws_id (cl_ws cl)); eauto.
Qed.

Lemma server_inv_message srv now ws data :
  server_inv srv → server_inv (on_message now ws data srv).
Proof.
  intros Hinv. unfold on_message.
  repeat case_decide.
  - apply server_inv_start, Hinv.
  - destruct (ws_id ws); simpl; [|exact Hinv].
    apply server_inv_update_state; [|exact Hinv].
    intros st Hr Hc. split; [apply reach_pause; assumption|exact Hc].
  - destruct (ws_id ws); simpl; [|exact Hinv].
    apply server_inv_update_state; [|exact Hinv].
    intros st Hr Hc. split; [apply reach_resume; assumption|exact Hc].
  - destruct (ws_id ws); simpl; [|exact Hinv]. apply server_inv_stop, Hinv.
  - destruct (ws_id ws); [|exact Hinv].
    destruct (msg_speed data); [|exact Hinv].
    apply server_inv_update_state; [|exact Hinv].
    intros st Hr Hc. split; [apply reach_speed; assumption|exact Hc].
  - exact Hinv.
Qed.

Lemma server_inv_handle e srv srv' :
  server_inv srv → handle e srv = Some srv' → server_inv srv'.
Proof.
  intros Hinv. destruct e as [now ws data|ws|t]; simpl.
  - intros [= <-]. apply server_inv_message, Hinv.
  - intros [= <-]. unfold on_close. destruct (ws_id ws); [|exact Hinv].
    apply server_inv_stop, Hinv.
  - apply server_inv_timer, Hinv.
Qed.

Theorem server_reachable_inv srv : server_reachable srv → server_inv srv.
Proof.
  induction 1 as [|srv e srv' _ IH He];
    [apply server_inv_empty | exact (server_inv_handle e srv srv' IH He)].
Qed.

(** No event makes a reachable server raise. *)
Theorem server_never_raises srv e :
  server_reachable srv → ∃ srv', handle e srv = Some srv'.
Proof.
  intros Hr. destruct e; simpl; eauto.
  apply timer_never_raises, server_reachable_inv, Hr.
Qed.

(** The index invariant, for every session registered in a reachable
    server. *)
Corollary registered_sessions_indices srv i a :
  server_reachable srv → activeSimulations srv !! i = Some a →
  ∃ st, heap srv !! state a = Some st
    ∧ nextWaypointIndex st = currentWaypointIndex st + 1
    ∧ nextWaypointIndex st ≤ length (waypoints st)
    ∧ complete st = false.
Proof.
  intros Hr Ha.
  destruct (proj1 (server_reachable_inv srv Hr) i a Ha)
    as (_ & cl & st & _ & _ & _ & Hst & Hrs & Hc).
  exists st. pose proof (reachable_inv st Hrs) as [Hn _ Hrange _ _ _].
  repeat split; try assumption. lia.
Qed.

(** The timer of another session leaves a registered session alone. *)
Lemma timer_other_session srv t srv' i a :
  server_inv srv → activeSimulations srv !! i = Some a → t ≠ interval a →
  interval_callback t srv = Some srv' →
  activeSimulations srv' !! i = Some a
  ∧ heap srv' !! state a = heap srv !! state a.
Proof.
  intros Hinv Ha Hne. unfold interval_callback.
  destruct (intervals srv !! t) as [cl|] eqn:Ht; [|intros [= <-]; auto].
  destruct (server_inv_timer_state srv t cl Hinv Ht)
    as (j & st & Hj & Hreg & Hcl & Hst & Hr & Hc).
  destruct (proj1 Hinv i a Ha) as (Heq & _).
  rewrite Hcl, Hst. simpl.
  destruct (isPaused st); [intros [= <-]; auto|].
  destruct (updateDronePosition st) as [st'|]; [|discriminate]. simpl.
  assert (Hij : j ≠ i).
  { intros ->. rewrite Ha in Hreg. injection Hreg as ->. apply Hne. reflexivity. }
  destruct (complete st').
  - rewrite Hj. intros [= <-]. simpl.
    rewrite lookup_delete_ne by exact Hij.
    rewrite lookup_insert_ne by congruence. auto.
  - intros [= <-]. simpl. rewrite lookup_insert_ne by congruence. auto.
Qed.

(** A paused session through any sequence of timer firings. *)
Lemma paused_session_frozen (ts : list nat) : ∀ srv i a st,
  server_inv srv → activeSimulations srv !! i = Some a →
  heap srv !! state a = Some st → isPaused st = true →
  ∃ srv', run (Timer <$> ts) srv = Some srv'
    ∧ server_inv srv'
    ∧ activeSimulations srv' !! i = Some a
    ∧ heap srv' !! state a = Some st
    ∧ ((∀ t, t ∈ ts → t = interval a) → srv' = srv).
Proof.
  induction ts as [|t ts IH]; intros srv i a st Hinv Ha Hst Hp.
  - exists srv. simpl. split; [reflexivity|]. split; [exact Hinv|].
    split; [exact Ha|]. split; [exact Hst|]. reflexivity.
  - destruct (timer_never_raises srv t Hinv) as [srv1 H1].
    pose proof (server_inv_timer srv t srv1 Hinv H1) as Hinv1.
    assert (Hkeep : activeSimulations srv1 !! i = Some a
                    ∧ heap srv1 !! state a = Some st
                    ∧ (t = interval a → srv1 = srv)).
    { destruct (decide (t = interval a)) as [->|Hne].
      - destruct (proj1 Hinv i a Ha) as (_ & cl & st0 & Ht & Hcl & _ & Hst0 & _).
        rewrite <- Hcl in Hst.
        rewrite (paused_tick (interval a) cl st srv Ht Hst Hp) in H1.
        injection H1 as <-. rewrite Hcl in Hst. auto.
      - destruct (timer_other_session srv t srv1 i a Hinv Ha Hne H1) as [Ha1 Hh].
        split; [exact Ha1|]. split; [rewrite Hh; exact Hst|].
        intros E. contradiction. }
    destruct Hkeep as (Ha1 & Hst1 & Hsame).
    destruct (IH srv1 i a st Hinv1 Ha1 Hst1 Hp)
      as (srv' & Hrun & Hinv' & Ha' & Hst' & Hsame').
    exists srv'. simpl. rewrite H1. simpl.
    split; [exact Hrun|]. split; [exact Hinv'|]. split; [exact Ha'|].
    split; [exact Hst'|].
    intros Hall. rewrite Hsame', Hsame; [reflexivity| |].
    + apply Hall. left.
    + intros t' Ht'. apply Hall. right. exact Ht'.
Qed.

(** C6: once a session is paused, any number of timer ticks, of its own
    clock or of others, leave every field of the session exactly as the
    pause left it (and ticks of its own clock leave the whole server
    unchanged); resuming then only clears the flag, which gives back the
    state the session had before the pause, so that the ticks that follow
    are those of that state. *)
Theorem C6_pause_freezes_session (clientId : string) (srv : Server)
    (a : ActiveSimulation) (ts : list nat)
    (Hsrv : server_reachable srv)
    (Ha : activeSimulations srv !! clientId = Some a) :
  ∃ st frozen,
    heap srv !! state a = Some st
    ∧ run (Timer <$> ts) (handlePauseSimulation clientId srv) = Some frozen
    ∧ activeSimulations frozen !! clientId = Some a
    ∧ heap frozen !! state a = Some (set_isPaused true st)
    ∧ heap (handleResumeSimulation clientId frozen) !! state a
      = Some (set_isPaused false st)
    ∧ (isPaused st = false →
         heap (handleResumeSimulation clientId frozen) !! state a = Some st)
    ∧ ((∀ t, t ∈ ts → t = interval a) →
         frozen = handlePauseSimulation clientId srv
         ∧ (isPaused st = false →
              handleResumeSimulation clientId frozen = srv)).
Proof.
  pose proof (server_reachable_inv srv Hsrv) as Hinv.
  destruct (proj1 Hinv clientId a Ha) as (_ & cl & st & _ & _ & _ & Hst & Hr & Hc).
  assert (Hpinv : server_inv (handlePauseSimulation clientId srv)).
  { apply server_inv_update_state; [|exact Hinv].
    intros s Hs Hcs. split; [apply reach_pause; assumption|exact Hcs]. }
  assert (Hpa : activeSimulations (handlePauseSimulation clientId srv) !! clientId
                = Some a).
  { unfold handlePauseSimulation, update_state. rewrite Ha. exact Ha. }
  assert (Hpst : heap (handlePauseSimulation clientId srv) !! state a
                 = Some (set_isPaused true st)).
  { unfold handlePauseSimulation, update_state. rewrite Ha. simpl.
    rewrite lookup_alter_eq, Hst. reflexivity. }
  destruct (paused_session_frozen ts _ clientId a _ Hpinv Hpa Hpst eq_refl)
    as (frozen & Hrun & _ & Hfa & Hfst & Hsame).
  assert (Hres : heap (handleResumeSimulation clientId frozen) !! state a
                 = Some (set_isPaused false st)).
  { unfold handleResumeSimulation, update_state. rewrite Hfa. simpl.
    rewrite lookup_alter_eq, Hfst. reflexivity. }
  exists st, frozen.
  split; [exact Hst|]. split; [exact Hrun|]. split; [exact Hfa|].
  split; [exact Hfst|]. split; [exact Hres|]. split.
  - intros Hrunning. rewrite Hres. f_equal.
    destruct st. simpl in *. subst. reflexivity.
  - intros Hown. specialize (Hsame Hown). split; [exact Hsame|].
    intros Hrunning. rewrite Hsame.
    unfold handleResumeSimulation, handlePauseSimulation.
    rewrite update_state_twice. unfold update_state. rewrite Ha.
    rewrite alter_id.
    + destruct srv. reflexivity.
    + intros x Hx. rewrite Hst in Hx. injection Hx as <-.
      apply set_isPaused_running. exact Hrunning.
Qed.

Lemma C6_pause_freezes_session_witness :
  let srv := Scenario.started 0 in
  server_reachable srv
  ∧ activeSimulations srv !! "1700000000000" = Some (mkActive 0 0)
  ∧ ∃ frozen,
      run (Timer <$> [0; 0; 3; 0])
        (handlePauseSimulation "1700000000000" srv) = Some frozen
      ∧ heap frozen !! 0
        = Some (set_isPaused true
                  (simulationState Scenario.route (Some 1%float) 0)).
Proof.
  intros srv.
  assert (Hsrv : server_reachable srv).
  { apply (sr_step empty_server (Message 0 Scenario.ws Scenario.start));
      [apply sr_init|reflexivity]. }
  assert (Ha : activeSimulations srv !! "1700000000000" = Some (mkActive 0 0))
    by (vm_compute; reflexivity).
  split; [exact Hsrv|]. split; [exact Ha|].
  destruct (C6_pause_freezes_session "1700000000000" srv (mkActive 0 0)
              [0; 0; 3; 0] Hsrv Ha)
    as (st & frozen & Hst & Hrun & _ & Hfrozen & _).
  exists frozen. split; [exact Hrun|].
  assert (Hst0 : heap srv !! 0
                 = Some (simulationState Scenario.route (Some 1%float) 0))
    by (vm_compute; reflexivity).
  change (heap srv !! 0 = Some st) in Hst.
  rewrite Hst0 in Hst. injection Hst as <-. exact Hfrozen.
Defined.

(** ** Further properties of the server *)

Lemma started_reachable now : server_reachable (Scenario.started now).
Proof.
  apply (sr_step empty_server (Message now Scenario.ws Scenario.start));
    [apply sr_init|reflexivity].
Qed.

(** X1: in every server state reachable from the empty server by
    messages, closes and timer firings, no event raises: the timer
    callback always finds its state object and [updateDronePosition]
    never reads a waypoint out of range; the state that results is
    reachable again. *)
Theorem X1_reachable_server_never_raises (srv : Server) (e : Event)
    (Hsrv : server_reachable srv) :
  ∃ srv', handle e srv = Some srv' ∧ server_reachable srv'.
Proof.
  assert (H : ∃ srv', handle e srv = Some srv').
  { destruct e; simpl; eauto.
    apply timer_never_raises, server_reachable_inv, Hsrv. }
  destruct H as [srv' H]. exists srv'. split; [exact H|].
  exact (sr_step srv e srv' Hsrv H).
Qed.

Lemma X1_reachable_server_never_raises_witness :
  server_reachable (Scenario.started 0)
  ∧ ∃ srv', handle (Timer 0) (Scenario.started 0) = Some srv'
            ∧ server_reachable srv'.
Proof.
  split; [exact (started_reachable 0)|].
  exact (X1_reachable_server_never_raises (Scenario.started 0) (Timer 0)
           (started_reachable 0)).
Defined.

(** X2: in every reachable server, registered sessions and armed timers
    correspond one to one: a registered session has its timer armed, on
    its own state object and for a connection with its id; every armed
    timer is the timer of the session registered under its connection's
    id; and no two registered sessions share a timer or a state object. *)
Theorem X2_sessions_and_timers_correspond (srv : Server)
    (Hsrv : server_reachable srv) :
  (∀ i a, activeSimulations srv !! i = Some a →
     ∃ cl, intervals srv !! interval a = Some cl
           ∧ cl_state cl = state a ∧ ws_id (cl_ws cl) = Some i
           ∧ is_Some (heap srv !! state a))
  ∧ (∀ t cl, intervals srv !! t = Some cl →
       ∃ i a, ws_id (cl_ws cl) = Some i
              ∧ activeSimulations srv !! i = Some a
              ∧ interval a = t ∧ state a = cl_state cl)
  ∧ (∀ i j a b, activeSimulations srv !! i = Some a →
       activeSimulations srv !! j = Some b →
       interval a = interval b ∨ state a = state b → i = j).
Proof.
  pose proof (server_reachable_inv srv Hsrv) as Hinv.
  pose proof Hinv as [H1 H2]. split; [|split].
  - intros i a Ha.
    destruct (H1 i a Ha) as (_ & cl & st & Ht & Hcl & Hi & Hst & _).
    exists cl. rewrite Hst. eauto.
  - intros t cl Ht. destruct (H2 t cl Ht) as (Hcl & _ & i & Hi & Hreg).
    exists i, (mkActive t t). simpl. auto.
  - intros i j a b Ha Hb Heq.
    apply (server_inv_interval_inj srv i j a b Hinv Ha Hb).
    destruct (H1 i a Ha) as (Ea & _). destruct (H1 j b Hb) as (Eb & _).
    destruct Heq; congruence.
Qed.

Lemma X2_sessions_and_timers_correspond_witness :
  server_reachable (Scenario.started 0)
  ∧ ∃ cl, intervals (Scenario.started 0) !! 0 = Some cl
          ∧ ws_id (cl_ws cl) = Some "1700000000000".
Proof.
  split; [exact (started_reachable 0)|].
  destruct (proj1 (X2_sessions_and_timers_correspond (Scenario.started 0)
                     (started_reachable 0))
              "1700000000000" (mkActive 0 0))
    as (cl & Ht & _ & Hi & _); [vm_compute; reflexivity|].
  exists cl. split; [exact Ht|exact Hi].
Defined.

(** Timers never register a session or arm a timer, and what they send
    goes to the socket their closure captured. *)
Lemma timer_shrinks srv t srv' :
  interval_callback t srv = Some srv' →
  (∀ i a, activeSimulations srv' !! i = Some a →
          activeSimulations srv !! i = Some a)
  ∧ (∀ u cl, intervals srv' !! u = Some cl → intervals srv !! u = Some cl)
  ∧ (sent srv' = sent srv
     ∨ ∃ cl st', intervals srv !! t = Some cl
         ∧ sent srv' = sent srv ++ [(socket (cl_ws cl), position_update st')]).
Proof.
  unfold interval_callback.
  destruct (intervals srv !! t) as [cl|] eqn:Ht; [|intros [= <-]; auto].
  destruct (heap srv !! cl_state cl) as [st|]; [|discriminate]. simpl.
  destruct (isPaused st); [intros [= <-]; auto|].
  destruct (updateDronePosition st) as [st'|]; [|discriminate]. simpl.
  destruct (complete st').
  - destruct (ws_id (cl_ws cl)) as [i|]; intros [= <-]; simpl;
      (split; [|split; [|right; eauto]]).
    + intros j a Ha. apply lookup_delete_Some in Ha as [_ Ha]. exact Ha.
    + intros u c Hu. apply lookup_delete_Some in Hu as [_ Hu]. exact Hu.
    + auto.
    + intros u c Hu. apply lookup_delete_Some in Hu as [_ Hu]. exact Hu.
  - intros [= <-]. simpl. split; [auto|]. split; [auto|]. right. eauto.
Qed.

Lemma timers_after_teardown (ts : list nat) : ∀ srv srv' (P : Closure → Prop),
  (∀ t cl, intervals srv !! t = Some cl → P cl) →
  run (Timer <$> ts) srv = Some srv' →
  (∀ t cl, intervals srv' !! t = Some cl → P cl)
  ∧ (∀ i, activeSimulations srv !! i = None →
          activeSimulations srv' !! i = None)
  ∧ ∃ log, sent srv' = sent srv ++ log
      ∧ ∀ m, m ∈ log → ∃ t cl, intervals srv !! t = Some cl
                               ∧ P cl ∧ m.1 = socket (cl_ws cl).
Proof.
  induction ts as [|t ts IH]; intros srv srv' P HP Hrun; simpl in Hrun.
  - injection Hrun as <-. split; [exact HP|]. split; [auto|].
    exists []. rewrite app_nil_r. split; [reflexivity|].
    intros m Hm. inversion Hm.
  - destruct (interval_callback t srv) as [srv1|] eqn:H1; [|discriminate].
    simpl in Hrun.
    destruct (timer_shrinks srv t srv1 H1) as (Hs & Hi & Hlog).
    destruct (IH srv1 srv' P) as (HP' & Hnone & log & Hsent & Hall);
      [intros u cl Hu; apply (HP u), Hi, Hu|exact Hrun|].
    split; [exact HP'|]. split.
    + intros i Hn. apply Hnone.
      destruct (activeSimulations srv1 !! i) as [a|] eqn:Ha; [|reflexivity].
      apply Hs in Ha. congruence.
    + destruct Hlog as [Hlog|(cl & st' & Ht & Hlog)].
      * exists log. rewrite Hsent, Hlog. split; [reflexivity|].
        intros m Hm. destruct (Hall m Hm) as (u & c & Hu & Hc & Hm').
        exists u, c. split; [apply Hi, Hu|]. split; assumption.
      * exists ((socket (cl_ws cl), position_update st') :: log).
        rewrite Hsent, Hlog, <- app_assoc. split; [reflexivity|].
        intros m Hm. apply elem_of_cons in Hm as [->|Hm].
        -- exists t, cl. split; [exact Ht|]. split; [apply (HP t), Ht|reflexivity].
        -- destruct (Hall m Hm) as (u & c & Hu & Hc & Hm').
           exists u, c. split; [apply Hi, Hu|]. split; assumption.
Qed.

(** X3: after the close handler of a connection has run on a reachable
    server, no session is registered under its id and no armed timer
    captures a connection with that id; however many timers fire
    afterwards this stays so, and every message they send goes to the
    socket of a timer that was still armed after the close, hence to a
    connection with another id. *)
Theorem X3_close_tears_the_clock_down (srv : Server) (ws : WebSocketWithId)
    (i : string) (ts : list nat)
    (Hsrv : server_reachable srv) (Hid : ws_id ws = Some i) :
  let closed := on_close ws srv in
  activeSimulations closed !! i = None
  ∧ (∀ t cl, intervals closed !! t = Some cl → ws_id (cl_ws cl) ≠ Some i)
  ∧ ∃ srv' log,
      run (Timer <$> ts) closed = Some srv'
      ∧ activeSimulations srv' !! i = None
      ∧ (∀ t cl, intervals srv' !! t = Some cl → ws_id (cl_ws cl) ≠ Some i)
      ∧ sent srv' = sent closed ++ log
      ∧ ∀ m, m ∈ log →
          ∃ t cl, intervals closed !! t = Some cl
                  ∧ ws_id (cl_ws cl) ≠ Some i ∧ m.1 = socket (cl_ws cl).
Proof.
  cbv zeta.
  pose proof (server_reachable_inv srv Hsrv) as Hinv.
  assert (Hcinv : server_inv (on_close ws srv)).
  { unfold on_close. rewrite Hid. apply server_inv_stop, Hinv. }
  assert (Hnone : activeSimulations (on_close ws srv) !! i = None).
  { unfold on_close, handleStopSimulation. rewrite Hid.
    destruct (activeSimulations srv !! i) as [a|] eqn:Ha; simpl.
    - apply lookup_delete_eq.
    - exact Ha. }
  assert (Hnot : ∀ t cl, intervals (on_close ws srv) !! t = Some cl →
                         ws_id (cl_ws cl) ≠ Some i).
  { intros t cl Ht Hi.
    destruct (proj2 Hcinv t cl Ht) as (_ & _ & j & Hj & Hreg). congruence. }
  split; [exact Hnone|]. split; [exact Hnot|].
  assert (Hrun : ∃ srv', run (Timer <$> ts) (on_close ws srv) = Some srv').
  { clear Hnone Hnot. revert Hcinv. generalize (on_close ws srv).
    induction ts as [|t ts IH]; intros s Hs; simpl; [eauto|].
    destruct (timer_never_raises s t Hs) as [s1 H1]. rewrite H1. simpl.
    apply IH. exact (server_inv_timer s t s1 Hs H1). }
  destruct Hrun as [srv' Hrun].
  destruct (timers_after_teardown ts _ srv'
              (λ cl, ws_id (cl_ws cl) ≠ Some i) Hnot Hrun)
    as (HP & Hkeep & log & Hsent & Hall).
  exists srv', log. split; [exact Hrun|]. split; [apply Hkeep, Hnone|].
  split; [exact HP|]. split; [exact Hsent|exact Hall].
Qed.

Lemma X3_close_tears_the_clock_down_witness :
  let closed := on_close Scenario.ws (Scenario.started 0) in
  server_reachable (Scenario.started 0)
  ∧ ws_id Scenario.ws = Some "1700000000000"
  ∧ activeSimulations closed !! "1700000000000" = None
  ∧ ∃ srv', run (Timer <$> [0; 0]) closed = Some srv'
            ∧ activeSimulations srv' !! "1700000000000" = None.
Proof.
  intros closed.
  split; [exact (started_reachable 0)|]. split; [reflexivity|].
  destruct (X3_close_tears_the_clock_down (Scenario.started 0) Scenario.ws
              "1700000000000" [0; 0] (started_reachable 0) eq_refl)
    as (Hnone & _ & srv' & log & Hrun & Hnone' & _).
  split; [exact Hnone|]. exists srv'. split; [exact Hrun|exact Hnone'].
Defined.

(** A tick on a segment leaves the completion flag alone. *)
Lemma update_keeps_flag s s' :
  updateDronePosition s = Some s' →
  nextWaypointIndex s < length (waypoints s) →
  complete s' = complete s.
Proof.
  unfold updateDronePosition. intros Hu Hlt.
  apply Nat.leb_gt in Hlt. rewrite Hlt in Hu.
  destruct (waypoints s !! currentWaypointIndex s); [|discriminate].
  destruct (waypoints s !! nextWaypointIndex s); [|discriminate].
  simpl in Hu. destruct (Num.geb _ _); injection Hu as <-; reflexivity.
Qed.

(** What an unpaused tick does to a server that satisfies the
    invariant. *)
Lemma unpaused_tick srv t cl st :
  server_inv srv → intervals srv !! t = Some cl →
  heap srv !! cl_state cl = Some st → isPaused st = false →
  ∃ st' srv' i,
    updateDronePosition st = Some st'
    ∧ interval_callback t srv = Some srv'
    ∧ ws_id (cl_ws cl) = Some i
    ∧ activeSimulations srv !! i = Some (mkActive t t)
    ∧ cl_state cl = t
    ∧ sent srv' = sent srv ++ [(socket (cl_ws cl), position_update st')]
    ∧ heap srv' !! t = Some st'
    ∧ (complete st' = true → intervals srv' !! t = None
                             ∧ activeSimulations srv' !! i = None)
    ∧ (complete st' = false → intervals srv' !! t = Some cl
                              ∧ activeSimulations srv' !! i
                                = Some (mkActive t t)).
Proof.
  intros Hinv Ht Hst Hp.
  destruct (server_inv_timer_state srv t cl Hinv Ht)
    as (i & st0 & Hi & Hreg & Hcl & Hst0 & Hr & Hc).
  destruct cl as [w l]. simpl in Hcl, Hst, Hi. subst l.
  rewrite Hst in Hst0. injection Hst0 as <-.
  destruct (update_total st (reachable_inv st Hr)) as [st' Hu].
  unfold interval_callback. rewrite Ht. simpl. rewrite Hst. simpl.
  rewrite Hp, Hu. simpl.
  destruct (complete st') eqn:Hc'; rewrite ?Hi;
    eexists st', _, i; (split; [reflexivity|]); (split; [reflexivity|]);
    (split; [reflexivity|]); (split; [exact Hreg|]); (split; [reflexivity|]);
    simpl; (split; [reflexivity|]); rewrite lookup_insert_eq;
    (split; [reflexivity|]); split; intros E; try congruence.
  - rewrite !lookup_delete_eq. split; reflexivity.
  - split; [exact Ht|exact Hreg].
Qed.

(** X8: in a reachable server, a firing of an armed timer whose session
    is not paused sends exactly one POSITION_UPDATE, built from the state
    after the tick, to the socket that started the session; its
    currentWaypoint is a valid index of the route.  If that message
    carries isComplete = true (which happens exactly when the indices had
    passed the last segment) the timer is disarmed and the session
    unregistered in the same firing; otherwise both stay. *)
Theorem X8_unpaused_tick_sends_one_update (srv : Server) (t : nat)
    (cl : Closure) (st : SimulationState)
    (Hsrv : server_reachable srv)
    (Ht : intervals srv !! t = Some cl)
    (Hst : heap srv !! cl_state cl = Some st)
    (Hrun : isPaused st = false) :
  ∃ st' srv' i,
    updateDronePosition st = Some st'
    ∧ interval_callback t srv = Some srv'
    ∧ ws_id (cl_ws cl) = Some i
    ∧ sent srv' = sent srv ++ [(socket (cl_ws cl), position_update st')]
    ∧ currentWaypointIndex st' < length (waypoints st')
    ∧ (complete st' = true ↔ length (waypoints st) ≤ nextWaypointIndex st)
    ∧ (complete st' = true → intervals srv' !! t = None
                             ∧ activeSimulations srv' !! i = None)
    ∧ (complete st' = false → intervals srv' !! t = Some cl
                              ∧ activeSimulations srv' !! i
                                = activeSimulations srv !! i).
Proof.
  pose proof (server_reachable_inv srv Hsrv) as Hinv.
  destruct (unpaused_tick srv t cl st Hinv Ht Hst Hrun)
    as (st' & srv' & i & Hu & Hcb & Hi & Hreg & Hcl & Hsent & _ & Hdone & Hgo).
  exists st', srv', i.
  split; [exact Hu|]. split; [exact Hcb|]. split; [exact Hi|].
  split; [exact Hsent|]. split.
  { destruct (server_inv_timer_state srv t cl Hinv Ht)
      as (_ & st0 & _ & _ & Hcl' & Hst0 & Hr & _).
    rewrite Hcl' in Hst. rewrite Hst in Hst0. injection Hst0 as <-.
    pose proof (session_inv_update st st' (reachable_inv st Hr) Hu)
      as [Hn _ Hrange _ _ _].
    lia. }
  split; [|split; [exact Hdone|]].
  - destruct (server_inv_timer_state srv t cl Hinv Ht)
      as (_ & st0 & _ & _ & Hcl' & Hst0 & Hr & Hc).
    rewrite Hcl' in Hst. rewrite Hst in Hst0. injection Hst0 as <-.
    destruct (decide (length (waypoints st) ≤ nextWaypointIndex st)) as [Hend|Hmid].
    + rewrite update_at_end in Hu by exact Hend. injection Hu as <-.
      split; [intros _; exact Hend|reflexivity].
    + split; [|intros; contradiction]. intros Hc'.
      rewrite (update_keeps_flag st st' Hu) in Hc' by lia. congruence.
  - intros E. destruct (Hgo E) as [Ht' Hreg']. split; [exact Ht'|].
    rewrite Hreg', Hreg. reflexivity.
Qed.

Lemma X8_unpaused_tick_sends_one_update_witness :
  let srv := Scenario.started 0 in
  server_reachable srv
  ∧ intervals srv !! 0 = Some (mkClosure Scenario.ws 0)
  ∧ ∃ st' srv',
      interval_callback 0 srv = Some srv'
      ∧ sent srv' = sent srv ++ [(7, position_update st')].
Proof.
  intros srv.
  assert (Ht : intervals srv !! 0 = Some (mkClosure Scenario.ws 0))
    by (vm_compute; reflexivity).
  assert (Hst : heap srv !! 0
                = Some (simulationState Scenario.route (Some 1%float) 0))
    by (vm_compute; reflexivity).
  split; [exact (started_reachable 0)|]. split; [exact Ht|].
  destruct (X8_unpaused_tick_sends_one_update srv 0 _ _
              (started_reachable 0) Ht Hst eq_refl)
    as (st' & srv' & i & _ & Hcb & _ & Hsent & _).
  exists st', srv'. split; [exact Hcb|exact Hsent].
Defined.

(** A tick never touches the route, the speed, the pause flag, the
    start time or the total distance. *)
Lemma update_untouched s s' :
  updateDronePosition s = Some s' →
  waypoints s' = waypoints s ∧ speed s' = speed s
  ∧ isPaused s' = isPaused s ∧ startTime s' = startTime s
  ∧ totalDistance s' = totalDistance s.
Proof.
  unfold updateDronePosition.
  destruct (length (waypoints s) <=? nextWaypointIndex s)%nat.
  - intros [= <-]. repeat split.
  - destruct (waypoints s !! currentWaypointIndex s); [|discriminate].
    destruct (waypoints s !! nextWaypointIndex s); [|discriminate].
    simpl. destruct (Num.geb _ _); intros [= <-]; repeat split.
Qed.

Lemma timer_runs_to_completion k : ∀ srv t cl st,
  server_inv srv → intervals srv !! t = Some cl →
  heap srv !! cl_state cl = Some st → isPaused st = false →
  (remaining st ≤ Z.of_nat k)%Z →
  (∀ n s', advance_n n st = Some s' → progressing s') →
  ∃ n srv' st',
    run (replicate (S n) (Timer t)) srv = Some srv'
    ∧ intervals srv' !! t = None
    ∧ (∀ i, ws_id (cl_ws cl) = Some i → activeSimulations srv' !! i = None)
    ∧ last (sent srv') = Some (socket (cl_ws cl), position_update st')
    ∧ complete st' = true.
Proof.
  induction k as [|k IH]; intros srv t cl st Hinv Ht Hst Hp Hk Hgo;
    destruct (unpaused_tick srv t cl st Hinv Ht Hst Hp)
      as (st1 & srv1 & i & Hu & Hcb & Hi & Hreg & Hcl & Hsent & Hst1 & Hdone & Hmore);
    destruct (server_inv_timer_state srv t cl Hinv Ht)
      as (_ & st0 & _ & _ & _ & Hst0 & Hr & Hc);
    rewrite Hcl in Hst; rewrite Hst in Hst0; injection Hst0 as <-;
    pose proof (reachable_inv st Hr) as Hsinv;
    (destruct (decide (nextWaypointIndex st < length (waypoints st)))
      as [Hlt|Hge];
     [|rewrite update_at_end in Hu by lia; injection Hu as <-;
       destruct (Hdone eq_refl) as [Hgone Hunreg];
       exists 0, srv1, (set_isComplete true st); simpl; rewrite Hcb; simpl;
       split; [reflexivity|]; split; [exact Hgone|];
       split; [intros j Hj; rewrite Hi in Hj; injection Hj as <-; exact Hunreg|];
       split; [rewrite Hsent; apply last_snoc|reflexivity]]);
    pose proof (remaining_decreases st st1 Hlt Hu (Hgo 0 st eq_refl)) as Hdec;
    pose proof (remaining_nonneg st1 (session_inv_update st st1 Hsinv Hu)) as Hpos.
  - lia.
  - assert (Hc1 : complete st1 = false)
      by (rewrite (update_keeps_flag st st1 Hu Hlt); exact Hc).
    destruct (Hmore Hc1) as [Ht1 _].
    destruct (update_untouched st st1 Hu) as (_ & _ & Hp1 & _).
    destruct (IH srv1 t cl st1) as (n & srv' & st' & Hrun & Hgone & Hunreg & Hlast & Hc');
      [exact (server_inv_timer srv t srv1 Hinv Hcb) | exact Ht1
      | rewrite Hcl; exact Hst1 | congruence | lia
      | intros n s' Hn; apply (Hgo (S n)); simpl; rewrite Hu; exact Hn |].
    exists (S n), srv', st'.
    change (replicate (S (S n)) (Timer t))
      with (Timer t :: replicate (S n) (Timer t)).
    simpl run. simpl handle. rewrite Hcb. simpl. split; [exact Hrun|].
    split; [exact Hgone|]. split; [exact Hunreg|]. split; assumption.
Qed.

(** X9: in a reachable server, if a registered session is not paused
    and its ticks do not stall, then firing its timer some finite number
    of times ends the session: the last message sent is a POSITION_UPDATE
    with isComplete = true to the session's socket, the timer is disarmed
    and the session is no longer registered. *)
Theorem X9_timer_runs_session_to_completion (srv : Server) (i : string)
    (a : ActiveSimulation) (st : SimulationState)
    (Hsrv : server_reachable srv)
    (Ha : activeSimulations srv !! i = Some a)
    (Hst : heap srv !! state a = Some st)
    (Hrun : isPaused st = false)
    (Hgo : ∀ n s', advance_n n st = Some s' → progressing s') :
  ∃ n srv' sock p pr k,
    run (replicate (S n) (Timer (interval a))) srv = Some srv'
    ∧ activeSimulations srv' !! i = None
    ∧ intervals srv' !! interval a = None
    ∧ last (sent srv') = Some (sock, POSITION_UPDATE p pr k true).
Proof.
  pose proof (server_reachable_inv srv Hsrv) as Hinv.
  destruct (proj1 Hinv i a Ha) as (_ & cl & st0 & Ht & Hcl & Hi & Hst0 & Hr & _).
  rewrite Hst in Hst0. injection Hst0 as <-.
  pose proof (remaining_nonneg st (reachable_inv st Hr)) as Hpos.
  destruct (timer_runs_to_completion (Z.to_nat (remaining st)) srv
              (interval a) cl st Hinv Ht) as (n & srv' & st' & Hr' & Hgone & Hunreg & Hlast & Hc');
    [rewrite Hcl; exact Hst|exact Hrun|lia|exact Hgo|].
  exists n, srv', (socket (cl_ws cl)), (currentPosition st'), (progress st'),
    (currentWaypointIndex st').
  split; [exact Hr'|]. split; [exact (Hunreg i Hi)|]. split; [exact Hgone|].
  rewrite Hlast. unfold position_update. rewrite Hc'. reflexivity.
Qed.

Lemma X9_timer_runs_session_to_completion_witness :
  let srv :=
    handleStartSimulation 0 Scenario.ws Scenario.start_south empty_server in
  let st := simulationState Scenario.south (Some Scenario.fast) 0 in
  server_reachable srv
  ∧ activeSimulations srv !! "1700000000000" = Some (mkActive 0 0)
  ∧ heap srv !! 0 = Some st
  ∧ isPaused st = false
  ∧ (∀ n s', advance_n n st = Some s' → progressing s')
  ∧ ∃ n srv', run (replicate (S n) (Timer 0)) srv = Some srv'
              ∧ activeSimulations srv' !! "1700000000000" = None.
Proof.
  intros srv st.
  assert (Hsrv : server_reachable srv).
  { apply (sr_step empty_server (Message 0 Scenario.ws Scenario.start_south));
      [apply sr_init|reflexivity]. }
  assert (Ha : activeSimulations srv !! "1700000000000" = Some (mkActive 0 0))
    by (vm_compute; reflexivity).
  assert (Hst : heap srv !! 0 = Some st) by (vm_compute; reflexivity).
  assert (Hgo : ∀ n s', advance_n n st = Some s' → progressing s').
  { apply (never_stalls_sound 5). vm_compute. reflexivity. }
  split; [exact Hsrv|]. split; [exact Ha|]. split; [exact Hst|].
  split; [reflexivity|]. split; [exact Hgo|].
  destruct (X9_timer_runs_session_to_completion srv "1700000000000"
              (mkActive 0 0) st Hsrv Ha Hst eq_refl Hgo)
    as (n & srv' & _ & _ & _ & _ & Hrun & Hnone & _).
  exists n, srv'. split; [exact Hrun|exact Hnone].
Defined.

(** X4: when a start request is accepted on a connection id that already
    has a session, the old session's timer is disarmed (firing its handle
    afterwards changes nothing), the id is registered to the new session
    alone, and the only armed timer for that id is the new one, on the
    socket that sent the request. *)
Theorem X4_restart_discards_the_old_clock (srv : Server) (now : Z)
    (ws : WebSocketWithId) (data : WebSocketMessage) (i : string)
    (wps : list Coordinate) (old : ActiveSimulation)
    (Hsrv : server_reachable srv)
    (Hid : ws_id ws = Some i)
    (Hwps : msg_waypoints data = Some wps)
    (Hlen : 2 ≤ length wps)
    (Hold : activeSimulations srv !! i = Some old) :
  let srv' := handleStartSimulation now ws data srv in
  intervals srv' !! interval old = None
  ∧ interval_callback (interval old) srv' = Some srv'
  ∧ activeSimulations srv' !! i
    = Some (mkActive (next_ref srv) (next_ref srv))
  ∧ ∀ t cl, intervals srv' !! t = Some cl → ws_id (cl_ws cl) = Some i →
            t = next_ref srv ∧ cl_ws cl = ws.
Proof.
  cbv zeta.
  pose proof (server_reachable_inv srv Hsrv) as Hinv.
  pose proof (server_inv_start srv now ws data Hinv) as Hinv'.
  destruct (proj1 Hinv i old Hold) as (_ & cl0 & _ & Ht0 & _).
  destruct (proj2 Hinv _ _ Ht0) as (_ & Hlt & _).
  assert (Hsims : activeSimulations (handleStartSimulation now ws data srv) !! i
                  = Some (mkActive (next_ref srv) (next_ref srv))
                  ∧ intervals (handleStartSimulation now ws data srv)
                    = <[next_ref srv := mkClosure ws (next_ref srv)]>
                        (delete (interval old) (intervals srv))).
  { unfold handleStartSimulation. rewrite Hid, Hwps.
    apply Nat.ltb_ge in Hlen. rewrite Hlen, Hold.
    destruct (wps !! 0); simpl; rewrite lookup_insert_eq; split; reflexivity. }
  destruct Hsims as [Hreg Htimers].
  assert (Hgone : intervals (handleStartSimulation now ws data srv)
                    !! interval old = None).
  { rewrite Htimers, lookup_insert_ne by lia. apply lookup_delete_eq. }
  split; [exact Hgone|]. split.
  { unfold interval_callback. rewrite Hgone. reflexivity. }
  split; [exact Hreg|].
  intros t cl Ht Hi.
  destruct (proj2 Hinv' t cl Ht) as (_ & _ & j & Hj & Hreg').
  rewrite Hi in Hj. injection Hj as <-. rewrite Hreg in Hreg'.
  injection Hreg' as <-. split; [reflexivity|].
  rewrite Htimers, lookup_insert_eq in Ht. injection Ht as <-. reflexivity.
Qed.

Lemma X4_restart_discards_the_old_clock_witness :
  let srv := Scenario.started 0 in
  let srv' := handleStartSimulation 9 Scenario.ws Scenario.start_south srv in
  server_reachable srv
  ∧ activeSimulations srv !! "1700000000000" = Some (mkActive 0 0)
  ∧ intervals srv' !! 0 = None
  ∧ activeSimulations srv' !! "1700000000000" = Some (mkActive 1 1).
Proof.
  intros srv srv'.
  assert (Hold : activeSimulations srv !! "1700000000000" = Some (mkActive 0 0))
    by (vm_compute; reflexivity).
  assert (Hlen : 2 ≤ length Scenario.south) by (simpl; lia).
  split; [exact (started_reachable 0)|]. split; [exact Hold|].
  destruct (X4_restart_discards_the_old_clock srv 9 Scenario.ws
              Scenario.start_south "1700000000000" Scenario.south
              (mkActive 0 0) (started_reachable 0) eq_refl eq_refl Hlen Hold)
    as (Hgone & _ & Hreg & _).
  split; [exact Hgone|exact Hreg].
Defined.

(** X5: a message other than START_SIMULATION on a connection that has
    no registered session (never started, stopped, completed or closed)
    changes nothing and sends nothing; so does, whatever the state, a
    message whose type is none of the five known ones, and an
    UPDATE_SPEED that carries no number. *)
Theorem X5_stale_and_unknown_messages_are_ignored (now : Z)
    (ws : WebSocketWithId) (data : WebSocketMessage) (srv : Server)
    (Hnostart : msg_type data ≠ "START_SIMULATION")
    (Hwhy : (∀ i, ws_id ws = Some i → activeSimulations srv !! i = None)
            ∨ (msg_type data ≠ "PAUSE_SIMULATION"
               ∧ msg_type data ≠ "RESUME_SIMULATION"
               ∧ msg_type data ≠ "STOP_SIMULATION"
               ∧ msg_type data ≠ "UPDATE_SPEED")
            ∨ (msg_type data = "UPDATE_SPEED" ∧ msg_speed data = None)) :
  on_message now ws data srv = srv.
Proof.
  unfold on_message. rewrite decide_False by exact Hnostart.
  destruct Hwhy as [Hnone|[(Hp & Hr & Hs & Hu)|[Hu Hv]]].
  - assert (Hst : ∀ f i, ws_id ws = Some i → update_state i f srv = srv).
    { intros f i Hi. unfold update_state. rewrite (Hnone i Hi). reflexivity. }
    repeat case_decide; try reflexivity;
      destruct (ws_id ws) as [i|] eqn:Hi; simpl; try reflexivity.
    + apply Hst. reflexivity.
    + apply Hst. reflexivity.
    + unfold handleStopSimulation. rewrite (Hnone i eq_refl). reflexivity.
    + destruct (msg_speed data); [|reflexivity]. apply Hst. reflexivity.
  - rewrite !decide_False by assumption. reflexivity.
  - rewrite Hu. simpl. rewrite Hv. destruct (ws_id ws); reflexivity.
Qed.

Lemma X5_stale_and_unknown_messages_are_ignored_witness :
  let stopped := handleStopSimulation "1700000000000" (Scenario.started 0) in
  let data := mkMessage "PAUSE_SIMULATION" None None in
  msg_type data ≠ "START_SIMULATION"
  ∧ (∀ i, ws_id Scenario.ws = Some i → activeSimulations stopped !! i = None)
  ∧ on_message 3 Scenario.ws data stopped = stopped.
Proof.
  intros stopped data.
  assert (Hnostart : msg_type data ≠ "START_SIMULATION") by discriminate.
  assert (Hnone : ∀ i, ws_id Scenario.ws = Some i →
                       activeSimulations stopped !! i = None).
  { intros i Hi. injection Hi as <-. vm_compute. reflexivity. }
  split; [exact Hnostart|]. split; [exact Hnone|].
  exact (X5_stale_and_unknown_messages_are_ignored 3 Scenario.ws data stopped
           Hnostart (or_introl Hnone)).
Defined.

(** ** Isolation between connections *)

Lemma server_inv_refs srv j b :
  server_inv srv → activeSimulations srv !! j = Some b →
  state b = interval b ∧ interval b < next_ref srv.
Proof.
  intros [H1 H2] Hb. destruct (H1 j b Hb) as (Heq & cl & _ & Ht & _).
  destruct (H2 _ _ Ht) as (_ & Hlt & _). auto.
Qed.

Lemma update_state_other srv i f j b :
  server_inv srv → i ≠ j → activeSimulations srv !! j = Some b →
  activeSimulations (update_state i f srv) !! j = Some b
  ∧ heap (update_state i f srv) !! state b = heap srv !! state b
  ∧ intervals (update_state i f srv) !! interval b
    = intervals srv !! interval b.
Proof.
  intros Hinv Hne Hb. unfold update_state.
  destruct (activeSimulations srv !! i) as [a|] eqn:Ha; [|auto].
  simpl. split; [exact Hb|]. split; [|reflexivity].
  apply lookup_alter_ne. intros E. apply Hne.
  apply (server_inv_interval_inj srv i j a b Hinv Ha Hb).
  destruct (server_inv_refs srv i a Hinv Ha) as [Ea _].
  destruct (server_inv_refs srv j b Hinv Hb) as [Eb _]. congruence.
Qed.

Lemma stop_other srv i j b :
  server_inv srv → i ≠ j → activeSimulations srv !! j = Some b →
  activeSimulations (handleStopSimulation i srv) !! j = Some b
  ∧ heap (handleStopSimulation i srv) !! state b = heap srv !! state b
  ∧ intervals (handleStopSimulation i srv) !! interval b
    = intervals srv !! interval b.
Proof.
  intros Hinv Hne Hb. unfold handleStopSimulation.
  destruct (activeSimulations srv !! i) as [a|] eqn:Ha; [|auto].
  simpl. rewrite lookup_delete_ne by exact Hne.
  split; [exact Hb|]. split; [reflexivity|].
  apply lookup_delete_ne. intros E. apply Hne.
  exact (server_inv_interval_inj srv i j a b Hinv Ha Hb E).
Qed.

Lemma start_other srv now ws data j b :
  server_inv srv → ws_id ws ≠ Some j →
  activeSimulations srv !! j = Some b →
  let srv' := handleStartSimulation now ws data srv in
  activeSimulations srv' !! j = Some b
  ∧ heap srv' !! state b = heap srv !! state b
  ∧ intervals srv' !! interval b = intervals srv !! interval b.
Proof.
  intros Hinv Hne Hb. cbv zeta. unfold handleStartSimulation.
  destruct (ws_id ws) as [i|] eqn:Hi; [|auto].
  destruct (msg_waypoints data) as [wps|]; [|auto].
  destruct (length wps <? 2)%nat; [auto|].
  destruct (server_inv_refs srv j b Hinv Hb) as [Eb Hlt].
  assert (Hij : i ≠ j) by congruence.
  assert (H : ∀ s, activeSimulations s = <[i := mkActive (next_ref srv) (next_ref srv)]>
                       (activeSimulations srv) →
              heap s = <[next_ref srv := simulationState wps (msg_speed data) now]>
                         (heap srv) →
              (intervals s = <[next_ref srv := mkClosure ws (next_ref srv)]>
                               (intervals srv)
               ∨ ∃ old, activeSimulations srv !! i = Some old
                   ∧ intervals s = <[next_ref srv := mkClosure ws (next_ref srv)]>
                                     (delete (interval old) (intervals srv))) →
              activeSimulations s !! j = Some b
              ∧ heap s !! state b = heap srv !! state b
              ∧ intervals s !! interval b = intervals srv !! interval b).
  { intros s -> -> Ht. rewrite lookup_insert_ne by exact Hij.
    rewrite lookup_insert_ne by lia. split; [exact Hb|]. split; [reflexivity|].
    destruct Ht as [->|(old & Hold & ->)]; rewrite lookup_insert_ne by lia;
      [reflexivity|].
    apply lookup_delete_ne. intros E. apply Hij.
    exact (server_inv_interval_inj srv i j old b Hinv Hold Hb E). }
  destruct (activeSimulations srv !! i) as [old|] eqn:Hold;
    destruct (wps !! 0); apply H; simpl; eauto.
Qed.

Lemma timer_other_timer srv t srv' u :
  interval_callback t srv = Some srv' → u ≠ t →
  intervals srv' !! u = intervals srv !! u.
Proof.
  unfold interval_callback. intros H Hne.
  destruct (intervals srv !! t) as [cl|]; [|injection H as <-; reflexivity].
  destruct (heap srv !! cl_state cl) as [st|]; [|discriminate]. simpl in H.
  destruct (isPaused st); [injection H as <-; reflexivity|].
  destruct (updateDronePosition st) as [st'|]; [|discriminate]. simpl in H.
  destruct (complete st'); [|injection H as <-; reflexivity].
  destruct (ws_id (cl_ws cl)); injection H as <-; simpl;
    apply lookup_delete_ne; congruence.
Qed.

(** X6: in a reachable server, an event that belongs to one connection
    id (a message or close on a connection with that id, or a firing of
    that id's timer) leaves the session registered under any other id as
    it was: still registered, its state object unchanged and its timer
    still armed. *)
Theorem X6_connections_are_isolated (srv srv' : Server) (e : Event)
    (j : string) (b : ActiveSimulation)
    (Hsrv : server_reachable srv)
    (He : handle e srv = Some srv')
    (Hb : activeSimulations srv !! j = Some b)
    (Hother : event_owner srv e ≠ Some j) :
  activeSimulations srv' !! j = Some b
  ∧ heap srv' !! state b = heap srv !! state b
  ∧ intervals srv' !! interval b = intervals srv !! interval b.
Proof.
  pose proof (server_reachable_inv srv Hsrv) as Hinv.
  destruct e as [now ws data|ws|t]; simpl in He, Hother.
  - injection He as <-. unfold on_message.
    repeat case_decide.
    + apply start_other; assumption.
    + destruct (ws_id ws) as [i|]; simpl; [|auto].
      apply update_state_other; [assumption|congruence|assumption].
    + destruct (ws_id ws) as [i|]; simpl; [|auto].
      apply update_state_other; [assumption|congruence|assumption].
    + destruct (ws_id ws) as [i|]; simpl; [|auto].
      apply stop_other; [assumption|congruence|assumption].
    + destruct (ws_id ws) as [i|]; [|auto].
      destruct (msg_speed data); [|auto].
      apply update_state_other; [assumption|congruence|assumption].
    + auto.
  - injection He as <-. unfold on_close.
    destruct (ws_id ws) as [i|]; [|auto].
    apply stop_other; [assumption|congruence|assumption].
  - destruct (intervals srv !! t) as [cl|] eqn:Ht.
    + simpl in Hother.
      destruct (proj2 Hinv t cl Ht) as (_ & _ & i & Hi & Hreg).
      assert (Hne : t ≠ interval b).
      { intros ->. apply Hother. rewrite Hi. f_equal.
        exact (server_inv_interval_inj srv i j _ b Hinv Hreg Hb eq_refl). }
      destruct (timer_other_session srv t srv' j b Hinv Hb Hne He) as [Hs Hh].
      split; [exact Hs|]. split; [exact Hh|].
      apply (timer_other_timer srv t srv'); [exact He|congruence].
    + unfold interval_callback in He. rewrite Ht in He. injection He as <-.
      auto.
Qed.

Lemma X6_connections_are_isolated_witness :
  let other := mkWebSocket 8 (Some "1700000000001") in
  let srv := Scenario.started 0 in
  let e := Message 4 other Scenario.start_south in
  server_reachable srv
  ∧ activeSimulations srv !! "1700000000000" = Some (mkActive 0 0)
  ∧ event_owner srv e ≠ Some "1700000000000"
  ∧ ∃ srv', handle e srv = Some srv'
      ∧ activeSimulations srv' !! "1700000000000" = Some (mkActive 0 0)
      ∧ heap srv' !! 0 = heap srv !! 0.
Proof.
  intros other srv e.
  assert (Hb : activeSimulations srv !! "1700000000000" = Some (mkActive 0 0))
    by (vm_compute; reflexivity).
  assert (Hother : event_owner srv e ≠ Some "1700000000000") by discriminate.
  split; [exact (started_reachable 0)|]. split; [exact Hb|].
  split; [exact Hother|].
  exists (on_message 4 other Scenario.start_south srv).
  split; [reflexivity|].
  destruct (X6_connections_are_isolated srv _ e "1700000000000" (mkActive 0 0)
              (started_reachable 0) eq_refl Hb Hother) as (Hs & Hh & _).
  split; [exact Hs|exact Hh].
Defined.

(** X7: the control handlers compose as assignments to one field: of
    two speed updates the last wins, a speed update commutes with pause
    and with resume, and of a pause and a resume in a row only the last
    counts; a speed update on a registered session changes its speed and
    nothing else of it. *)
Theorem X7_control_handlers_compose (i : string) (v w : float) (srv : Server) :
  handleUpdateSpeed i w (handleUpdateSpeed i v srv) = handleUpdateSpeed i w srv
  ∧ handleUpdateSpeed i v (handlePauseSimulation i srv)
    = handlePauseSimulation i (handleUpdateSpeed i v srv)
  ∧ handleUpdateSpeed i v (handleResumeSimulation i srv)
    = handleResumeSimulation i (handleUpdateSpeed i v srv)
  ∧ handleResumeSimulation i (handlePauseSimulation i srv)
    = handleResumeSimulation i srv
  ∧ handlePauseSimulation i (handleResumeSimulation i srv)
    = handlePauseSimulation i srv
  ∧ handleResumeSimulation i (handleResumeSimulation i srv)
    = handleResumeSimulation i srv
  ∧ (∀ a st, activeSimulations srv !! i = Some a →
       heap srv !! state a = Some st →
       heap (handleUpdateSpeed i v srv) !! state a = Some (set_speed v st)
       ∧ activeSimulations (handleUpdateSpeed i v srv) = activeSimulations srv
       ∧ intervals (handleUpdateSpeed i v srv) = intervals srv
       ∧ sent (handleUpdateSpeed i v srv) = sent srv).
Proof.
  unfold handleUpdateSpeed, handlePauseSimulation, handleResumeSimulation.
  rewrite !update_state_twice.
  repeat (split; [apply update_state_ext; intros st; reflexivity|]).
  intros a st Ha Hst. unfold update_state. rewrite Ha. simpl.
  rewrite lookup_alter_eq, Hst. repeat split.
Qed.

(** ** Further properties of the route geometry *)

Lemma binary_round_aux_abs s m e l :
  SFabs (binary_round_aux prec emax s m e l)
  = SFabs (binary_round_aux prec emax false m e l).
Proof.
  unfold binary_round_aux.
  destruct (shr_fexp prec emax m e l) as [mrs e'].
  destruct (shr_fexp prec emax _ e' loc_Exact) as [mrs' e''].
  destruct (shr_m mrs'); simpl; try reflexivity.
  destruct (e'' <=? emax - prec)%Z; reflexivity.
Qed.

Lemma binary_normalize_abs_opp z e :
  SFabs (binary_normalize prec emax (- z) e false)
  = SFabs (binary_normalize prec emax z e false).
Proof.
  destruct z as [|m|m]; simpl; try reflexivity; unfold binary_round;
    destruct (shl_align _ _ _) as [mz ez];
    rewrite (binary_round_aux_abs true); reflexivity.
Qed.

(** [x - y] and [y - x] differ at most in sign. *)
Lemma SFsub_abs_swap x y :
  SFabs (SF64sub x y) = SFabs (SF64sub y x).
Proof.
  destruct x as [sx|sx| |sx mx ex], y as [sy|sy| |sy my ey];
    try (destruct sx, sy; reflexivity); try (destruct sx; reflexivity);
    try (destruct sy; reflexivity); try reflexivity.
  unfold SF64sub, SFsub. rewrite (Z.min_comm ey ex).
  rewrite <- binary_normalize_abs_opp. f_equal. f_equal. lia.
Qed.

(** A square only depends on the magnitude. *)
Lemma SFmul_self_abs u v :
  SFabs u = SFabs v → SF64mul u u = SF64mul v v.
Proof.
  destruct u as [s|s| |s m e], v as [s'|s'| |s' m' e']; simpl;
    try discriminate; try (destruct s, s'; reflexivity); try reflexivity.
  intros [= -> ->]. unfold SF64mul, SFmul. destruct s, s'; reflexivity.
Qed.

Lemma square_of_difference_swap x y :
  ((x - y) * (x - y))%float = ((y - x) * (y - x))%float.
Proof.
  apply Prim2SF_inj. rewrite !mul_spec, !sub_spec.
  apply SFmul_self_abs, SFsub_abs_swap.
Qed.

(** X10: the distance between two coordinates is symmetric, whatever the
    numbers (NaN and infinities included): calculateDistance(a, b) and
    calculateDistance(b, a) are the same value. *)
Theorem X10_distance_is_symmetric (a b : Coordinate) :
  calculateDistance a b = calculateDistance b a.
Proof.
  unfold calculateDistance.
  rewrite (square_of_difference_swap (lat b) (lat a)),
          (square_of_difference_swap (lng b) (lng a)).
  reflexivity.
Qed.

Lemma sign_clear_not_negative x :
  sign_clear (Prim2SF x) → (x <? 0)%float = false.
Proof.
  rewrite FloatAxioms.ltb_spec. change (Prim2SF 0) with (S754_zero false).
  destruct (Prim2SF x) as [s|s| |s m e]; simpl; intros H; subst; reflexivity.
Qed.

Lemma sign_clear_not_neg_zero x :
  sign_clear (Prim2SF x) → x ≠ (-0)%float.
Proof.
  intros H ->. discriminate H.
Qed.

(** X11: a distance is never negative and never the negative zero; it
    is NaN or at least +0, and it is +0 between two equal points with
    finite coordinates. *)
Theorem X11_distance_is_not_negative (a b : Coordinate) :
  (calculateDistance a b <? 0)%float = false
  ∧ calculateDistance a b ≠ (-0)%float
  ∧ (a = b → is_finite (lat a) = true → is_finite (lng a) = true →
     calculateDistance a b = 0%float).
Proof.
  pose proof (calculateDistance_sign_clear a b) as H.
  split; [exact (sign_clear_not_negative _ H)|].
  split; [exact (sign_clear_not_neg_zero _ H)|].
  intros <- Hlat Hlng. exact (calculateDistance_same a Hlat Hlng).
Qed.

Lemma total_from_sign_clear wps : ∀ acc,
  sign_clear (Prim2SF acc) →
  sign_clear (Prim2SF (calculateTotalDistance_from acc wps)).
Proof.
  induction wps as [|a [|b rest] IH]; intros acc Hacc; simpl; auto.
  apply (IH (acc + calculateDistance a b)%float).
  apply add_sign_clear; [exact Hacc|apply calculateDistance_sign_clear].
Qed.

Lemma zero_add_sign_clear d :
  sign_clear (Prim2SF d) → (0 + d)%float = d.
Proof.
  intros H. apply Prim2SF_inj. rewrite add_spec.
  change (Prim2SF 0) with (S754_zero false).
  destruct (Prim2SF d) as [s|s| |s m e]; simpl in *; subst; reflexivity.
Qed.

(** X12: the total route distance is 0 for a route of fewer than two
    waypoints, is the segment's distance for a route of two, adds the
    segments from the left for longer routes, and is never negative. *)
Theorem X12_total_distance (wps : list Coordinate) :
  (length wps < 2 → calculateTotalDistance wps = 0%float)
  ∧ (∀ a b, wps = [a; b] → calculateTotalDistance wps = calculateDistance a b)
  ∧ (∀ a b c, wps = [a; b; c] →
       calculateTotalDistance wps
       = (calculateDistance a b + calculateDistance b c)%float)
  ∧ (calculateTotalDistance wps <? 0)%float = false
  ∧ calculateTotalDistance wps ≠ (-0)%float.
Proof.
  split; [|split; [|split; [|split]]].
  - destruct wps as [|a [|b rest]]; simpl; intros H; try reflexivity; lia.
  - intros a b ->. unfold calculateTotalDistance. simpl.
    apply zero_add_sign_clear, calculateDistance_sign_clear.
  - intros a b c ->. unfold calculateTotalDistance. simpl.
    rewrite (zero_add_sign_clear _ (calculateDistance_sign_clear a b)).
    reflexivity.
  - apply sign_clear_not_negative, total_from_sign_clear. reflexivity.
  - apply sign_clear_not_neg_zero, total_from_sign_clear. reflexivity.
Qed.

(** ** Further properties of a tick *)

(** X13: the interpolation ratio never exceeds 1: it is NaN or at most
    1, whatever the progress and the segment distance, and the test
    [ratio >= 1] succeeds only when the ratio is exactly 1, so that a
    finished segment leaves the position computed at ratio 1. *)
Theorem X13_ratio_never_exceeds_one (p d : float) :
  (1 <? ratio_of p d)%float = false
  ∧ (Num.geb (ratio_of p d) 1 = true ↔ ratio_of p d = 1%float)
  ∧ (Num.geb (ratio_of p d) 1 = true ↔ (1 <=? p / d)%float = true).
Proof.
  split; [|split].
  - unfold ratio_of, Num.Math_min.
    destruct (is_nan (p / d) || is_nan 1)%bool; [reflexivity|].
    destruct (p / d <? 1)%float eqn:Hlt.
    + destruct (1 <? p / d)%float eqn:Hgt; [|reflexivity].
      apply ltb_leb in Hgt. apply ltb_leb_false in Hlt. congruence.
    + destruct (1 <? p / d)%float eqn:Hgt; [reflexivity|].
      destruct (is_zero (p / d) && get_sign (p / d))%bool; [exact Hgt|reflexivity].
  - split; [apply Math_min_one_geb|]. unfold ratio_of. intros ->. reflexivity.
  - unfold ratio_of. rewrite Math_min_geb_one. reflexivity.
Qed.

(** X14: a tick never modifies the route, the speed, the pause flag, the
    start time or the total distance; it moves both indices together, by
    0 or by 1, and never clears a set completion flag. *)
Theorem X14_tick_frame (s s' : SimulationState)
    (Hu : updateDronePosition s = Some s') :
  waypoints s' = waypoints s ∧ speed s' = speed s
  ∧ isPaused s' = isPaused s ∧ startTime s' = startTime s
  ∧ totalDistance s' = totalDistance s
  ∧ (currentWaypointIndex s' = currentWaypointIndex s
     ∧ nextWaypointIndex s' = nextWaypointIndex s
     ∨ currentWaypointIndex s' = S (currentWaypointIndex s)
       ∧ nextWaypointIndex s' = S (nextWaypointIndex s))
  ∧ (complete s = true → complete s' = true).
Proof.
  destruct (update_untouched s s' Hu) as (Hw & Hv & Hp & Ht & Hd).
  repeat (split; [assumption|]).
  revert Hu. unfold updateDronePosition.
  destruct (length (waypoints s) <=? nextWaypointIndex s)%nat.
  - intros [= <-]. simpl. auto.
  - destruct (waypoints s !! currentWaypointIndex s); [|discriminate].
    destruct (waypoints s !! nextWaypointIndex s); [|discriminate].
    simpl. destruct (Num.geb _ _); intros [= <-]; simpl; auto.
Qed.

Lemma X14_tick_frame_witness :
  let s := simulationState Scenario.route (Some 1%float) 0 in
  ∃ s', updateDronePosition s = Some s'
        ∧ waypoints s' = waypoints s ∧ speed s' = speed s.
Proof.
  intros s. eexists. split; [reflexivity|].
  destruct (X14_tick_frame s _ eq_refl) as (Hw & Hv & _).
  split; [exact Hw|exact Hv].
Defined.

(** ** Coordinate files *)

Lemma split_length sep s :
  length (Text.split sep s) = S (length (filter (λ c, c = sep) s)).
Proof.
  induction s as [|c r IH]; [reflexivity|]. simpl.
  destruct (N.eqb_spec c sep) as [->|Hne].
  - rewrite filter_cons_True by reflexivity. simpl. rewrite IH. reflexivity.
  - rewrite filter_cons_False by exact Hne.
    destruct (Text.split sep r) as [|piece rest]; [discriminate IH|exact IH].
Qed.

Lemma split_one_piece sep s :
  length (Text.split sep s) < 2 ↔ sep ∉ s.
Proof.
  rewrite split_length. split.
  - intros H Hin.
    assert (Hf : sep ∈ filter (λ c, c = sep) s)
      by (apply list_elem_of_filter; auto).
    destruct (filter (λ c, c = sep) s); [inversion Hf|simpl in H; lia].
  - intros Hnot.
    destruct (filter (λ c, c = sep) s) as [|c l] eqn:E; [simpl; lia|].
    exfalso. assert (Hc : c ∈ filter (λ c, c = sep) s) by (rewrite E; left).
    apply list_elem_of_filter in Hc as [-> Hin]. exact (Hnot Hin).
Qed.

Lemma map_throwing_inr {A B} (f : A → string + B) xs ys :
  Text.map_throwing f xs = inr ys → Forall2 (λ x y, f x = inr y) xs ys.
Proof.
  revert ys. induction xs as [|x r IH]; simpl; intros ys H.
  - injection H as <-. constructor.
  - destruct (f x) as [e|y] eqn:Hx; [discriminate|].
    destruct (Text.map_throwing f r) as [e|ys']; [discriminate|].
    injection H as <-. constructor; auto.
Qed.

Lemma map_throwing_inl {A B} (f : A → string + B) xs e :
  Text.map_throwing f xs = inl e → ∃ x, x ∈ xs ∧ f x = inl e.
Proof.
  induction xs as [|x r IH]; simpl; intros H; [discriminate|].
  destruct (f x) as [e'|y] eqn:Hx.
  - injection H as <-. exists x. split; [left|exact Hx].
  - destruct (Text.map_throwing f r) as [e'|ys']; [|discriminate].
    injection H as <-. destruct (IH eq_refl) as (x' & Hin & Hx').
    exists x'. split; [right; exact Hin|exact Hx'].
Qed.

Lemma trimStart_spaces s :
  Forall (λ c, Text.is_space c = true) s → Text.trimStart s = [].
Proof.
  induction 1 as [|c r Hc _ IH]; [reflexivity|]. simpl. rewrite Hc. exact IH.
Qed.

Lemma trim_spaces s :
  Forall (λ c, Text.is_space c = true) s → Text.trim s = [].
Proof.
  intros H. unfold Text.trim. rewrite (trimStart_spaces s H). reflexivity.
Qed.

Section Parsers.

Variable parseFloat : list N → float.
Variable toLowerCase : list N → list N.

Lemma csv_row_inr latIndex lngIndex line c :
  Text.csv_row parseFloat latIndex lngIndex line = inr c →
  latIndex < length (Text.split 44 line)
  ∧ lngIndex < length (Text.split 44 line)
  ∧ lat c = parseFloat (default [] (Text.split 44 line !! latIndex))
  ∧ lng c = parseFloat (default [] (Text.split 44 line !! lngIndex))
  ∧ is_nan (lat c) = false ∧ is_nan (lng c) = false.
Proof.
  unfold Text.csv_row.
  destruct (_ <=? _)%nat eqn:Hlen; [discriminate|].
  apply Nat.leb_gt in Hlen.
  destruct (is_nan _ || is_nan _)%bool eqn:Hnan; [discriminate|].
  apply orb_false_iff in Hnan as [H1 H2]. intros [= <-]. simpl.
  repeat split; try assumption; lia.
Qed.

(** X15: when parseCsvCoordinates returns, the header had a column
    containing "lat" and one containing "lon" or "lng" (the first such
    columns are used), there is exactly one coordinate per line after
    the header, in order, at least one, each read by parseFloat from
    these two columns of its line, and no coordinate is NaN. *)
Theorem X15_csv_success (content : list N) (coordinates : list Coordinate)
    (Hok : Text.parseCsvCoordinates parseFloat toLowerCase content
           = inr coordinates) :
  let lines := Text.split 10 (Text.trim content) in
  let headers := Text.split 44 (toLowerCase (default [] (lines !! 0))) in
  ∃ latIndex lngIndex,
    Text.findIndex (Text.includes (Text.lit "lat")) headers = Some latIndex
    ∧ Text.findIndex
        (λ h, Text.includes (Text.lit "lon") h
              || Text.includes (Text.lit "lng") h) headers = Some lngIndex
    ∧ length coordinates = length lines - 1
    ∧ 1 ≤ length coordinates
    ∧ Forall2
        (λ line c,
           latIndex < length (Text.split 44 line)
           ∧ lngIndex < length (Text.split 44 line)
           ∧ lat c = parseFloat (default [] (Text.split 44 line !! latIndex))
           ∧ lng c = parseFloat (default [] (Text.split 44 line !! lngIndex))
           ∧ is_nan (lat c) = false ∧ is_nan (lng c) = false)
        (drop 1 lines) coordinates.
Proof.
  cbv zeta. revert Hok. unfold Text.parseCsvCoordinates, Text.csv_body.
  destruct (_ <? 2)%nat eqn:Hlen; [discriminate|].
  apply Nat.ltb_ge in Hlen.
  destruct (Text.findIndex (Text.includes _) _) as [latIndex|]; [|discriminate].
  destruct (Text.findIndex (λ h, _) _) as [lngIndex|]; [|discriminate].
  destruct (Text.map_throwing _ _) as [e|cs] eqn:Hmap; [discriminate|].
  intros [= <-]. exists latIndex, lngIndex.
  apply map_throwing_inr in Hmap.
  pose proof (Forall2_length _ _ _ Hmap) as Hl. rewrite length_drop in Hl.
  split; [reflexivity|]. split; [reflexivity|]. split; [lia|]. split; [lia|].
  eapply Forall2_impl; [exact Hmap|].
  intros line c Hrow. exact (csv_row_inr _ _ _ _ Hrow).
Qed.

(** X16: parseCsvCoordinates fails in exactly four ways, each with the
    prefix "CSV parsing error: "; it fails with the first of them, the
    missing data row, exactly when the trimmed content has no line
    break (an empty file included). *)
Theorem X16_csv_failures (content : list N) :
  let result := Text.parseCsvCoordinates parseFloat toLowerCase content in
  (∀ message, result = inl message →
     message = "CSV parsing error: CSV file must contain at least a header and one data row."
     ∨ message = "CSV parsing error: Could not find latitude/longitude columns in CSV."
     ∨ message = "CSV parsing error: CSV row has fewer columns than expected."
     ∨ message = "CSV parsing error: Invalid coordinate values in CSV.")
  ∧ (result = inl "CSV parsing error: CSV file must contain at least a header and one data row."
     ↔ 10%N ∉ Text.trim content).
Proof.
  cbv zeta. unfold Text.parseCsvCoordinates, Text.csv_body.
  rewrite <- split_one_piece.
  destruct (_ <? 2)%nat eqn:Hlen.
  - apply Nat.ltb_lt in Hlen. split; [intros m [= <-]; auto|].
    split; [intros _; exact Hlen|reflexivity].
  - apply Nat.ltb_ge in Hlen.
    assert (Hrow : ∀ a b e, Text.map_throwing (Text.csv_row parseFloat a b)
                   (drop 1 (Text.split 10 (Text.trim content))) = inl e →
                   e = "CSV row has fewer columns than expected."
                   ∨ e = "Invalid coordinate values in CSV.").
    { intros a b e He. apply map_throwing_inl in He as (line & _ & He).
      unfold Text.csv_row in He.
      destruct (_ <=? _)%nat; [injection He as <-; auto|].
      destruct (is_nan _ || is_nan _)%bool; [injection He as <-; auto|discriminate]. }
    destruct (Text.findIndex (Text.includes _) _) as [latIndex|];
      [destruct (Text.findIndex (λ h, _) _) as [lngIndex|]|];
      try (split; [intros m [= <-]; auto|split; [discriminate|intros; lia]]).
    destruct (Text.map_throwing _ _) as [e|cs] eqn:Hmap.
    + destruct (Hrow _ _ _ Hmap) as [->| ->];
        (split; [intros m [= <-]; auto|split; [discriminate|intros; lia]]).
    + split; [discriminate|split; [discriminate|intros; lia]].
Qed.

Lemma txt_row_inr line c :
  Text.txt_row parseFloat line = inr c →
  let parts := if Text.includes (Text.lit ",") line
               then Text.split 44 line else Text.split_spaces line in
  2 ≤ length parts
  ∧ lat c = parseFloat (default [] (parts !! 0))
  ∧ lng c = parseFloat (default [] (parts !! 1))
  ∧ is_nan (lat c) = false ∧ is_nan (lng c) = false.
Proof.
  cbv zeta. unfold Text.txt_row.
  destruct (_ <? 2)%nat eqn:Hlen; [discriminate|].
  apply Nat.ltb_ge in Hlen.
  destruct (is_nan _ || is_nan _)%bool eqn:Hnan; [discriminate|].
  apply orb_false_iff in Hnan as [H1 H2]. intros [= <-]. simpl.
  repeat split; assumption.
Qed.

(** X17: parseTxtCoordinates never fails with "Text file contains no
    data": splitting always yields at least one line, so that check
    cannot fire.  Its only failures are the two row errors, and a
    content made of white space only (an empty file included) fails with
    the invalid format error. *)
Theorem X17_txt_failures (content : list N) :
  let result := Text.parseTxtCoordinates parseFloat content in
  result ≠ inl "Text file parsing error: Text file contains no data."
  ∧ (∀ message, result = inl message →
       message = "Text file parsing error: Invalid coordinate format in text file."
       ∨ message = "Text file parsing error: Invalid coordinate values in text file.")
  ∧ (Forall (λ c, Text.is_space c = true) content →
       result = inl "Text file parsing error: Invalid coordinate format in text file.").
Proof.
  cbv zeta.
  assert (Hall : ∀ message,
            Text.parseTxtCoordinates parseFloat content = inl message →
            message = "Text file parsing error: Invalid coordinate format in text file."
            ∨ message = "Text file parsing error: Invalid coordinate values in text file.").
  { unfold Text.parseTxtCoordinates, Text.txt_body.
    destruct (_ =? 0)%nat eqn:Hlen.
    { apply Nat.eqb_eq in Hlen. rewrite split_length in Hlen. discriminate. }
    destruct (Text.map_throwing _ _) as [e|cs] eqn:Hmap; [|discriminate].
    apply map_throwing_inl in Hmap as (line & _ & He).
    unfold Text.txt_row in He. intros m [= <-].
    destruct (_ <? 2)%nat; [injection He as <-; auto|].
    destruct (is_nan _ || is_nan _)%bool; [injection He as <-; auto|discriminate]. }
  split; [|split; [exact Hall|]].
  - intros H. destruct (Hall _ H) as [E|E]; discriminate E.
  - intros Hsp. unfold Text.parseTxtCoordinates, Text.txt_body.
    rewrite (trim_spaces content Hsp). reflexivity.
Qed.

(** X18: when parseTxtCoordinates returns, there is exactly one
    coordinate per line of the trimmed content, in order, at least one;
    each is read by parseFloat from the first two parts of its line,
    split at commas if the line has one and at runs of white space
    otherwise, and no coordinate is NaN. *)
Theorem X18_txt_success (content : list N) (coordinates : list Coordinate)
    (Hok : Text.parseTxtCoordinates parseFloat content = inr coordinates) :
  let lines := Text.split 10 (Text.trim content) in
  length coordinates = length lines
  ∧ 1 ≤ length coordinates
  ∧ Forall2
      (λ line c,
         let parts := if Text.includes (Text.lit ",") line
                      then Text.split 44 line else Text.split_spaces line in
         2 ≤ length parts
         ∧ lat c = parseFloat (default [] (parts !! 0))
         ∧ lng c = parseFloat (default [] (parts !! 1))
         ∧ is_nan (lat c) = false ∧ is_nan (lng c) = false)
      lines coordinates.
Proof.
  cbv zeta. revert Hok. unfold Text.parseTxtCoordinates, Text.txt_body.
  destruct (_ =? 0)%nat; [discriminate|].
  destruct (Text.map_throwing _ _) as [e|cs] eqn:Hmap; [discriminate|].
  intros [= <-]. apply map_throwing_inr in Hmap.
  pose proof (Forall2_length _ _ _ Hmap) as Hl.
  pose proof (split_length 10 (Text.trim content)) as Hs.
  split; [lia|]. split; [lia|].
  eapply Forall2_impl; [exact Hmap|].
  intros line c Hrow. exact (txt_row_inr _ _ Hrow).
Qed.

End Parsers.

(** "lat,lng", a line break, "1,2". *)
Lemma X15_csv_success_witness :
  let content := Text.lit "Lat,Lng" ++ [10%N] ++ Text.lit "1,2" in
  Text.parseCsvCoordinates Builtin.digit_parseFloat Builtin.ascii_toLowerCase
    content = inr [mkCoordinate 1 2]
  ∧ ∃ latIndex lngIndex,
      Text.findIndex (Text.includes (Text.lit "lat"))
        (Text.split 44 (Builtin.ascii_toLowerCase (Text.lit "Lat,Lng")))
      = Some latIndex
      ∧ Text.findIndex
          (λ h, Text.includes (Text.lit "lon") h
                || Text.includes (Text.lit "lng") h)
          (Text.split 44 (Builtin.ascii_toLowerCase (Text.lit "Lat,Lng")))
        = Some lngIndex.
Proof.
  intros content.
  assert (Hok : Text.parseCsvCoordinates Builtin.digit_parseFloat
                  Builtin.ascii_toLowerCase content = inr [mkCoordinate 1 2])
    by (vm_compute; reflexivity).
  split; [exact Hok|].
  destruct (X15_csv_success Builtin.digit_parseFloat Builtin.ascii_toLowerCase
              content _ Hok) as (latIndex & lngIndex & Hlat & Hlng & _).
  exists latIndex, lngIndex. split; [exact Hlat|exact Hlng].
Defined.

(** "1 2", a line break, "3,4". *)
Lemma X18_txt_success_witness :
  let content := Text.lit "1 2" ++ [10%N] ++ Text.lit "3,4" in
  Text.parseTxtCoordinates Builtin.digit_parseFloat content
  = inr [mkCoordinate 1 2; mkCoordinate 3 4]
  ∧ length [mkCoordinate 1 2; mkCoordinate 3 4]
    = length (Text.split 10 (Text.trim content)).
Proof.
  intros content.
  assert (Hok : Text.parseTxtCoordinates Builtin.digit_parseFloat content
                = inr [mkCoordinate 1 2; mkCoordinate 3 4])
    by (vm_compute; reflexivity).
  split; [exact Hok|].
  exact (proj1 (X18_txt_success Builtin.digit_parseFloat content _ Hok)).
Defined.

(** ** The client's waypoint list *)

Lemma filter_index_delete {A} (prev : list A) : ∀ from index,
  Client.filter_index (λ i, negb (i =? from + index)%nat) from prev
  = delete index prev.
Proof.
  induction prev as [|x r IH]; intros from index; [reflexivity|]. simpl.
  destruct index as [|index]; simpl.
  - rewrite Nat.add_0_r, Nat.eqb_refl. simpl.
    clear IH. generalize (Nat.lt_succ_diag_r from). generalize (S from).
    induction r as [|y r IH]; intros k Hk; [reflexivity|]. simpl.
    destruct (Nat.eqb_spec k from) as [->|_]; [lia|]. simpl.
    rewrite (IH (S k)) by lia. reflexivity.
  - destruct (Nat.eqb_spec from (from + S index)) as [E|_]; [lia|]. simpl.
    f_equal. rewrite <- (IH (S from) index). f_equal.
    replace (S from + index) with (from + S index) by lia. reflexivity.
Qed.

Lemma imap_update_insert {A} (w : A) (prev : list A) : ∀ index,
  imap (λ i wp, if (i =? index)%nat then w else wp) prev = <[index := w]> prev.
Proof.
  induction prev as [|x r IH]; intros index; [reflexivity|].
  rewrite imap_cons. destruct index as [|index]; simpl.
  - f_equal. clear IH. induction r as [|y r IH]; [reflexivity|].
    rewrite imap_cons. simpl. f_equal.
    rewrite <- IH at 2. apply imap_ext. intros i z _. reflexivity.
  - f_equal. rewrite <- IH. apply imap_ext. intros i z _. reflexivity.
Qed.

(** X19: the client's waypoint editing.  Removing at an index drops
    exactly that waypoint and keeps the others in order; updating at an
    index replaces exactly that waypoint; with an index past the end
    both leave the list as it was; and removing the waypoint just added
    gives back the list. *)
Theorem X19_waypoint_editing {A} (index : nat) (waypoint : A) (prev : list A) :
  Client.removeWaypoint index prev = take index prev ++ drop (S index) prev
  ∧ Client.updateWaypoint index waypoint prev = <[index := waypoint]> prev
  ∧ length (Client.updateWaypoint index waypoint prev) = length prev
  ∧ (index < length prev →
       length (Client.removeWaypoint index prev) = length prev - 1
       ∧ Client.updateWaypoint index waypoint prev !! index = Some waypoint)
  ∧ (∀ j, j ≠ index →
       Client.updateWaypoint index waypoint prev !! j = prev !! j)
  ∧ (length prev ≤ index →
       Client.removeWaypoint index prev = prev
       ∧ Client.updateWaypoint index waypoint prev = prev)
  ∧ Client.removeWaypoint (length prev) (Client.addWaypoint waypoint prev)
    = prev.
Proof.
  assert (Hrm : ∀ k (l : list A), Client.removeWaypoint k l = delete k l).
  { intros k l. unfold Client.removeWaypoint.
    exact (filter_index_delete l 0 k). }
  assert (Hup : Client.updateWaypoint index waypoint prev
                = <[index := waypoint]> prev)
    by apply imap_update_insert.
  rewrite !Hrm, Hup.
  split; [apply delete_take_drop|]. split; [reflexivity|].
  split; [apply length_insert|]. split; [|split; [|split]].
  - intros Hlt. split.
    + rewrite length_delete by (apply lookup_lt_is_Some_2; exact Hlt). lia.
    + apply list_lookup_insert_eq. exact Hlt.
  - intros j Hne. apply list_lookup_insert_ne. congruence.
  - intros Hge. split.
    + rewrite delete_take_drop, take_ge, drop_ge by lia. apply app_nil_r.
    + apply list_insert_ge. exact Hge.
  - unfold Client.addWaypoint.
    rewrite delete_take_drop, take_app_length.
    rewrite drop_ge by (rewrite length_app; simpl; lia). apply app_nil_r.
Qed.

(** ** JSON coordinate files *)

Lemma map_throwing_fmap {A B C} (f : B → string + C) (h : A → B)
    (k : A → C) (xs : list A) :
  (∀ x, f (h x) = inr (k x)) →
  Text.map_throwing f (h <$> xs) = inr (k <$> xs).
Proof.
  intros Hf. induction xs as [|x r IH]; [reflexivity|].
  rewrite !fmap_cons. cbn [Text.map_throwing]. rewrite Hf, IH. reflexivity.
Qed.

Section JsonParsers.

Variable JSON_parse : list N → string + Json.value.
Variable typeError : Json.TypeErrorSite → string.

Lemma json_point_inr point c :
  Json.json_point typeError point = inr c →
  ∃ x y, Json.get "lat" point = Some (Json.JNumber x)
         ∧ Json.get "lng" point = Some (Json.JNumber y)
         ∧ c = Json.mkAny (Some (Json.JNumber x)) (Some (Json.JNumber y)).
Proof.
  unfold Json.json_point.
  destruct point as [|b|x|s|items|fields]; try discriminate;
    try (simpl; discriminate).
  destruct (Json.get "lat" _) as [[|?|x|?|?|?]|] eqn:Hx; try discriminate.
  destruct (Json.get "lng" _) as [[|?|y|?|?|?]|] eqn:Hy; try discriminate.
  intros [= <-]. exists x, y. auto.
Qed.

(** X20: when parseJsonCoordinates returns on a JSON array, every
    element of the array is an object whose [lat] and [lng] are both
    numbers, and the result lists exactly these pairs of numbers, one
    per element and in order. *)
Theorem X20_json_array_success (content : list N) (data : list Json.value)
    (coordinates : list Json.AnyCoordinate)
    (Hparse : JSON_parse content = inr (Json.JArray data))
    (Hok : Json.parseJsonCoordinates JSON_parse typeError content
           = inr coordinates) :
  length coordinates = length data
  ∧ Forall2
      (λ point c,
         ∃ x y, Json.get "lat" point = Some (Json.JNumber x)
                ∧ Json.get "lng" point = Some (Json.JNumber y)
                ∧ c = Json.mkAny (Some (Json.JNumber x)) (Some (Json.JNumber y)))
      data coordinates.
Proof.
  revert Hok. unfold Json.parseJsonCoordinates, Json.json_body.
  rewrite Hparse.
  destruct (Text.map_throwing _ _) as [e|cs] eqn:Hmap; [discriminate|].
  intros [= <-]. apply map_throwing_inr in Hmap.
  split; [symmetry; exact (Forall2_length _ _ _ Hmap)|].
  eapply Forall2_impl; [exact Hmap|].
  intros point c Hc. exact (json_point_inr point c Hc).
Qed.

(** The coordinates array of a feature, when the feature has a truthy
    geometry whose [coordinates] is an array. *)
Lemma json_feature_inr feature c :
  Json.json_feature typeError feature = inr c →
  ∃ geometry cs,
    Json.get "geometry" feature = Some geometry
    ∧ Json.get "coordinates" geometry = Some (Json.JArray cs)
    ∧ c = Json.mkAny (cs !! 1) (cs !! 0).
Proof.
  unfold Json.json_feature.
  destruct feature as [|b|x|s|items|fields]; try discriminate;
    try (simpl; discriminate).
  destruct (Json.get "geometry" _) as [geometry|] eqn:Hg;
    [|simpl; discriminate].
  destruct (negb _); [discriminate|]. simpl.
  destruct (Json.get "coordinates" geometry) as [[|?|?|?|cs|?]|] eqn:Hc;
    try discriminate.
  intros [= <-]. exists geometry, cs. auto.
Qed.

Lemma json_feature_any fields geometry_fields cs :
  Json.assoc (Text.lit "geometry") fields
    = Some (Json.JObject geometry_fields) →
  Json.assoc (Text.lit "coordinates") geometry_fields
    = Some (Json.JArray cs) →
  Json.json_feature typeError (Json.JObject fields)
  = inr (Json.mkAny (cs !! 1) (cs !! 0)).
Proof.
  intros Hg Hc. unfold Json.json_feature, Json.get. rewrite Hg.
  cbn [Json.truthy negb mbind option_bind]. rewrite Hc. reflexivity.
Qed.

(** X21: on a GeoJSON FeatureCollection, when parseJsonCoordinates
    returns there is one coordinate per feature, in order, with lng the
    first and lat the second element of the feature's
    geometry.coordinates array; these two values are not checked: a
    feature whose geometry is an object with any array as coordinates is
    accepted, whatever the array holds, so lat and lng may be missing or
    not numbers. *)
Theorem X21_geojson_coordinates_unchecked (content : list N)
    (fields : list (list N * Json.value)) (features : list Json.value)
    (Hparse : JSON_parse content = inr (Json.JObject fields))
    (Htype : Json.assoc (Text.lit "type") fields
             = Some (Json.JString (Text.lit "FeatureCollection")))
    (Hfeatures : Json.assoc (Text.lit "features") fields
                 = Some (Json.JArray features)) :
  (∀ coordinates,
     Json.parseJsonCoordinates JSON_parse typeError content = inr coordinates →
     Forall2
       (λ feature c,
          ∃ geometry cs,
            Json.get "geometry" feature = Some geometry
            ∧ Json.get "coordinates" geometry = Some (Json.JArray cs)
            ∧ c = Json.mkAny (cs !! 1) (cs !! 0))
       features coordinates)
  ∧ (∀ css : list (list Json.value),
       features
       = (λ cs, Json.JObject
                  [(Text.lit "geometry",
                    Json.JObject [(Text.lit "coordinates", Json.JArray cs)])])
         <$> css →
       Json.parseJsonCoordinates JSON_parse typeError content
       = inr ((λ cs, Json.mkAny (cs !! 1) (cs !! 0)) <$> css)).
Proof.
  assert (Hbody : Json.json_body JSON_parse typeError content
                  = Text.map_throwing (Json.json_feature typeError) features).
  { unfold Json.json_body, Json.get. rewrite Hparse, Htype.
    unfold Json.same_string. rewrite bool_decide_eq_true_2 by reflexivity.
    rewrite Hfeatures. reflexivity. }
  split.
  - intros coordinates. unfold Json.parseJsonCoordinates. rewrite Hbody.
    destruct (Text.map_throwing _ _) as [e|cs] eqn:Hmap; [discriminate|].
    intros [= <-]. apply map_throwing_inr in Hmap.
    eapply Forall2_impl; [exact Hmap|].
    intros feature c Hc. exact (json_feature_inr feature c Hc).
  - intros css ->. unfold Json.parseJsonCoordinates. rewrite Hbody.
    rewrite (map_throwing_fmap _ _
               (λ cs, Json.mkAny (cs !! 1) (cs !! 0))); [reflexivity|].
    intros cs.
    apply (json_feature_any _ [(Text.lit "coordinates", Json.JArray cs)] cs);
      reflexivity.
Qed.

Variable extname : list N → list N.
Variable parseFloat : list N → float.
Variable toLowerCase : list N → list N.

(** X22: every failure of parseCoordinateFile is either the
    unsupported-format error, raised exactly when the lower-cased
    extension is none of .json, .csv and .txt, or the failure of the
    parser chosen by the extension, whose message starts with that
    parser's prefix. *)
Theorem X22_file_failures (content filename : list N) (message : string)
    (Hfail : Json.parseCoordinateFile JSON_parse typeError extname parseFloat
               toLowerCase content filename = inl message) :
  let extension := toLowerCase (extname filename) in
  (extension = Text.lit ".json"
   ∧ ∃ e, message = "JSON parsing error: " +:+ e)
  ∨ (extension = Text.lit ".csv"
     ∧ ∃ e, message = "CSV parsing error: " +:+ e)
  ∨ (extension = Text.lit ".txt"
     ∧ ∃ e, message = "Text file parsing error: " +:+ e)
  ∨ (extension ≠ Text.lit ".json" ∧ extension ≠ Text.lit ".csv"
     ∧ extension ≠ Text.lit ".txt"
     ∧ message
       = "Unsupported file format. Please upload JSON, CSV, or TXT files.").
Proof.
  cbv zeta. revert Hfail. unfold Json.parseCoordinateFile, Json.same_string.
  repeat case_bool_decide.
  - unfold Json.parseJsonCoordinates.
    destruct (Json.json_body _ _ _) as [e|cs]; [|discriminate].
    intros [= <-]. left. eauto.
  - unfold Text.parseCsvCoordinates.
    destruct (Text.csv_body _ _ _) as [e|cs]; [|discriminate].
    intros [= <-]. right. left. eauto.
  - unfold Text.parseTxtCoordinates.
    destruct (Text.txt_body _ _) as [e|cs]; [|discriminate].
    intros [= <-]. right. right. left. eauto.
  - intros [= <-]. right. right. right. auto.
Qed.

End JsonParsers.

Lemma X20_json_array_success_witness :
  let parse := λ _ : list N, inr JsonExample.points in
  Json.parseJsonCoordinates parse JsonExample.typeError []
  = inr [Json.mkAny (Some (Json.JNumber 1)) (Some (Json.JNumber 2))]
  ∧ length [Json.mkAny (Some (Json.JNumber 1)) (Some (Json.JNumber 2))] = 1.
Proof.
  intros parse.
  assert (Hok : Json.parseJsonCoordinates parse JsonExample.typeError []
                = inr [Json.mkAny (Some (Json.JNumber 1))
                         (Some (Json.JNumber 2))])
    by (vm_compute; reflexivity).
  split; [exact Hok|].
  exact (proj1 (X20_json_array_success parse JsonExample.typeError [] _ _
                  eq_refl Hok)).
Defined.

(** A feature whose coordinates are ["east"] is accepted: its lng is a
    string and its lat is undefined. *)
Lemma X21_geojson_coordinates_unchecked_witness :
  let parse := λ _ : list N, inr (Json.JObject JsonExample.collection) in
  Json.parseJsonCoordinates parse JsonExample.typeError []
  = inr [Json.mkAny None (Some (Json.JString (Text.lit "east")))].
Proof.
  intros parse.
  exact (proj2 (X21_geojson_coordinates_unchecked parse JsonExample.typeError
                  [] JsonExample.collection _ eq_refl eq_refl eq_refl)
           [[Json.JString (Text.lit "east")]] eq_refl).
Defined.

Lemma X22_file_failures_witness :
  let parse := λ _ : list N, inr JsonExample.points in
  let filename := Text.lit "route.GPX" in
  Json.parseCoordinateFile parse JsonExample.typeError JsonExample.extname
    Builtin.digit_parseFloat Builtin.ascii_toLowerCase [] filename
  = inl "Unsupported file format. Please upload JSON, CSV, or TXT files."
  ∧ Builtin.ascii_toLowerCase (JsonExample.extname filename)
    ≠ Text.lit ".json".
Proof.
  intros parse filename.
  assert (Hfail : Json.parseCoordinateFile parse JsonExample.typeError
                    JsonExample.extname Builtin.digit_parseFloat
                    Builtin.ascii_toLowerCase [] filename
                  = inl "Unsupported file format. Please upload JSON, CSV, or TXT files.")
    by (vm_compute; reflexivity).
  split; [exact Hfail|].
  destruct (X22_file_failures parse JsonExample.typeError JsonExample.extname
              Builtin.digit_parseFloat Builtin.ascii_toLowerCase [] filename
              _ Hfail) as [[E _]|[[E _]|[[E _]|[Hne _]]]];
    try (vm_compute in E; discriminate E).
  exact Hne.
Defined.
